(** * mpu.math: prime generation, factorization and primality

    A shallow embedding of [src/mpu/math.py] and the properties of its
    three functions [generate_primes], [factorize] and [is_prime].

    The semantics is that of Python 3: integers are unbounded ([Z]), [%]
    is the floor remainder ([Z.modulo]), and [/] on two integers is the
    true division, whose result is the quotient correctly rounded to a
    binary64 float.  [factorize] goes through floats twice, in
    [number ** 0.5] and in [int(number / i)]; both are modelled over
    integers in the module [Binary64].  The conversion and the division
    are correctly rounded by the interpreter and are modelled exactly.
    [number ** 0.5] is the [pow] of the C library, which is accurate to
    about one unit in the last place but need not be correctly rounded:
    [factorize] and [scan_stop] take the correctly rounded root, and
    [factorize_with] and [scan_stop_with] take the function of the library
    as a parameter.  The dictionary of [generate_primes] is a
    [gmap Z (list Z)].

    Not modelled: the recursion limit of the interpreter, which bounds the
    depth of [factorize] (one frame per factor).  At the default limit of
    1000 a call that needs about a thousand frames, such as
    [factorize(2 ** 1000)], ends in a [RecursionError] where the model
    yields the list.  That a call returns a list is therefore claimed of
    the program only where the depth is small (below [2 ^ 53] it is at
    most 54); [factorize_total] and [factorize_returns_below] are facts
    of the model, used to show that a call ends and to exclude an
    [OverflowError]. *)

From Stdlib Require Import ZArith Zdivisibility Lia List Sorted.
From stdpp Require Import gmap list strings sorting.

Local Open Scope Z_scope.

(** ** Binary64 arithmetic on positive values *)

Module Binary64.

(** A positive double [mant * 2 ^ expo]. *)
Record float := Float { mant : Z; expo : Z }.

(** [floor (log2 (a / b))] for positive integers [a] and [b]. *)
Definition ilog2_frac (a b : Z) : Z :=
  let d := Z.log2 a - Z.log2 b in
  if a * 2 ^ Z.max 0 (- d) <? b * 2 ^ Z.max 0 d then d - 1 else d.

(** The fraction [a / b] rounded to 53 significant bits, to nearest,
    ties to even. *)
Definition round_frac (a b : Z) : float :=
  let e := ilog2_frac a b - 52 in
  let num := a * 2 ^ Z.max 0 (- e) in
  let den := b * 2 ^ Z.max 0 e in
  let m0 := num / den in
  let r := num mod den in
  let up := (den <? 2 * r) || ((den =? 2 * r) && Z.odd m0) in
  Float (if up then m0 + 1 else m0) e.

(** [int(x)] and [math.ceil(x)] for a positive double. *)
Definition trunc (x : float) : Z := Z.shiftl (mant x) (expo x).
Definition ceil (x : float) : Z := - Z.shiftl (- mant x) (expo x).

(** The largest finite double is below [2 ^ 1024]. *)
Definition overflows (x : float) : bool := 2 ^ 1024 <=? trunc x.

(** The correctly rounded square root; a square root never falls on a
    midpoint between two doubles, so there is no tie to break. *)
Definition sqrt (x : float) : float :=
  let e := (Z.log2 (mant x) + expo x) / 2 - 52 in
  let w := mant x * 2 ^ (expo x - 2 * e) in
  let m0 := Z.sqrt w in
  Float (if (2 * m0 + 1) * (2 * m0 + 1) <? 4 * w then m0 + 1 else m0) e.

End Binary64.

(** ** Python values, exceptions and results *)

(** The values [factorize] is called with: integers ([bool] is a subclass
    of [int] and counts as one), floats [m * 2 ^ e], and anything else. *)
Inductive pyval :=
| PyInt (z : Z)
| PyFloat (m e : Z)
| PyStr (s : string)
| PyNone.

(** The two [ValueError]s of [factorize], told apart by their message, and
    the [OverflowError] of the float conversions. *)
Inductive exn :=
| InvalidInputError        (* ValueError('integer expected, but type(number)=...') *)
| ZeroFactorizationError   (* ValueError('All primes are prime factors of 0.') *)
| OverflowError.

Inductive result (A : Type) :=
| Ok (a : A)
| Raise (e : exn).
Arguments Ok {A} a.
Arguments Raise {A} e.

Definition bind {A B} (r : result A) (k : A -> result B) : result B :=
  match r with
  | Ok a => k a
  | Raise e => Raise e
  end.

(** [float(n)] for an integer [n >= 1]. *)
Definition float_of_int (n : Z) : result Binary64.float :=
  let x := Binary64.round_frac n 1 in
  if Binary64.overflows x then Raise OverflowError else Ok x.

(** [a / b] on integers [a >= b >= 1]: the correctly rounded quotient. *)
Definition int_truediv (a b : Z) : result Binary64.float :=
  let x := Binary64.round_frac a b in
  if Binary64.overflows x then Raise OverflowError else Ok x.

(** [number ** 0.5] for an integer [number >= 1]: the integer is converted
    to a double, which fails when it is too large, and C's [pow] is
    applied to it.  Here [pow(x, 0.5)] is the correctly rounded square
    root.  A C library may return a neighbour of it: glibc gives
    67141670.00000001 for the root of 4508003850388901, whose correctly
    rounded value is 67141670.0, and the scan then tests 67141671 as
    well.  The list [factorize] returns below [2 ^ 53] is the same in both
    cases ([factorize_with_exact_pos] below). *)
Definition pow_half (number : Z) : result Binary64.float :=
  bind (float_of_int number) (fun x => Ok (Binary64.sqrt x)).

(** ** factorize *)

(** [int(math_stl.ceil(number**0.5))]: the last trial divisor. *)
Definition scan_stop (number : Z) : result Z :=
  bind (pow_half number) (fun r => Ok (Binary64.ceil r)).

(** How the [for] loop ends: at the first [i] with [number % i == 0], or
    with the range exhausted. *)
Inductive scan_result :=
| Hit (i : Z)
| Exhausted.

(** The [for] loop: [n] is the number of values left in the range, [i]
    the current one. *)
Fixpoint trial (number i : Z) (n : nat) : scan_result :=
  match n with
  | O => Exhausted
  | S n' => if number mod i =? 0 then Hit i else trial number (i + 1) n'
  end.

(** The values of [i] for which [number % i] is evaluated. *)
Fixpoint tested (number i : Z) (n : nat) : list Z :=
  match n with
  | O => []
  | S n' => i :: if number mod i =? 0 then [] else tested number (i + 1) n'
  end.

(** [len(range(2, stop + 1))]. *)
Definition range_len (stop : Z) : nat := Z.to_nat (stop + 1 - 2).

(** [[x] + r], where [r] is the outcome of a recursive call. *)
Definition prepend (x : Z) (r : option (result (list Z))) :
  option (result (list Z)) :=
  match r with
  | Some (Ok l) => Some (Ok (x :: l))
  | other => other
  end.

(** [fuel] bounds the depth of the recursion; [None] means that it ran
    out. *)
Fixpoint factorize_fuel (fuel : nat) (v : pyval) : option (result (list Z)) :=
  match fuel with
  | O => None
  | S fuel' =>
      match v with
      | PyInt number =>
          if number <? 0 then
            prepend (-1) (factorize_fuel fuel' (PyInt (number * -1)))
          else if number =? 0 then Some (Raise ZeroFactorizationError)
          else
            match scan_stop number with
            | Raise e => Some (Raise e)
            | Ok stop =>
                match trial number 2 (range_len stop) with
                | Hit i =>
                    if i =? number then Some (Ok [i])
                    else
                      match int_truediv number i with
                      | Raise e => Some (Raise e)
                      | Ok q =>
                          prepend i
                            (factorize_fuel fuel' (PyInt (Binary64.trunc q)))
                      end
                | Exhausted => Some (Ok [number])
                end
            end
      | _ => Some (Raise InvalidInputError)
      end
  end.

(** A bound on the depth of the recursion: one frame to strip the sign,
    and then every recursive call is on a quotient that needs one binary
    digit less. *)
Definition depth_bound (v : pyval) : nat :=
  match v with
  | PyInt n => S (S (Z.to_nat (Z.log2_up (Z.abs n))))
  | _ => 1
  end.

(** A call of [factorize]: [Some (Ok l)] when it returns [l],
    [Some (Raise e)] when it raises [e]; it is never [None]
    ([factorize_total] below). *)
Definition factorize (v : pyval) : option (result (list Z)) :=
  factorize_fuel (depth_bound v) v.

(** *** With the [pow] of any C library

    The same function with [pow(x, 0.5)] as a parameter [pow_half_c]; with
    [Binary64.sqrt] for it these are [scan_stop], [factorize_fuel] and
    [factorize]. *)

(** [int(math_stl.ceil(number**0.5))]. *)
Definition scan_stop_with (pow_half_c : Binary64.float -> Binary64.float)
  (number : Z) : result Z :=
  bind (float_of_int number) (fun x => Ok (Binary64.ceil (pow_half_c x))).

Fixpoint factorize_fuel_with (pow_half_c : Binary64.float -> Binary64.float)
  (fuel : nat) (v : pyval) : option (result (list Z)) :=
  match fuel with
  | O => None
  | S fuel' =>
      match v with
      | PyInt number =>
          if number <? 0 then
            prepend (-1)
              (factorize_fuel_with pow_half_c fuel' (PyInt (number * -1)))
          else if number =? 0 then Some (Raise ZeroFactorizationError)
          else
            match scan_stop_with pow_half_c number with
            | Raise e => Some (Raise e)
            | Ok stop =>
                match trial number 2 (range_len stop) with
                | Hit i =>
                    if i =? number then Some (Ok [i])
                    else
                      match int_truediv number i with
                      | Raise e => Some (Raise e)
                      | Ok q =>
                          prepend i
                            (factorize_fuel_with pow_half_c fuel'
                               (PyInt (Binary64.trunc q)))
                      end
                | Exhausted => Some (Ok [number])
                end
            end
      | _ => Some (Raise InvalidInputError)
      end
  end.

Definition factorize_with (pow_half_c : Binary64.float -> Binary64.float)
  (v : pyval) : option (result (list Z)) :=
  factorize_fuel_with pow_half_c (depth_bound v) v.

(** A library whose [pow(x, 0.5)] is the double next above the correctly
    rounded root, as that of glibc is for 4508003850388901. *)
Definition pow_half_above (x : Binary64.float) : Binary64.float :=
  Binary64.Float (Binary64.mant (Binary64.sqrt x) + 1)
    (Binary64.expo (Binary64.sqrt x)).

(** ** is_prime *)

(** [len(factorize(number)) == 1]. *)
Definition is_prime (v : pyval) : option (result bool) :=
  match factorize v with
  | Some (Ok l) => Some (Ok (Nat.eqb (length l) 1))
  | Some (Raise e) => Some (Raise e)
  | None => None
  end.

(** The trial divisors a call on [number >= 1] goes through. *)
Definition scanned (number : Z) : list Z :=
  match scan_stop number with
  | Ok stop => tested number 2 (range_len stop)
  | Raise _ => []
  end.

(** The product of a list of factors. *)
Definition product (l : list Z) : Z := fold_right Z.mul 1 l.

(** ** generate_primes *)

(** The state of the generator: the dictionary [divisors] and the counter
    [candidate]. *)
Record sieve := Sieve { divisors : gmap Z (list Z); candidate : Z }.

(** [generate_primes()]: the generator in the state in which it is
    created. *)
Definition generate_primes : sieve := Sieve ∅ 2.

(** [divisors.setdefault(p + candidate, []).append(p)]. *)
Definition mark (candidate : Z) (divisors : gmap Z (list Z)) (p : Z) :
  gmap Z (list Z) :=
  <[p + candidate := default [] (divisors !! (p + candidate)) ++ [p]]> divisors.

(** One iteration of the [while] loop, up to and including
    [candidate += 1]: the value it yields, if any, and the next state.
    The generator is suspended at [yield]; the two statements after it run
    when it is resumed and are counted with the iteration that yields.
    The [for] loop runs over the list stored at [candidate]; [mark] writes
    at [p + candidate], another key since no witness is 0, so that list is
    not changed while it is traversed. *)
Definition step (s : sieve) : option Z * sieve :=
  let c := candidate s in
  match divisors s !! c with
  | Some witnesses =>
      (None, Sieve (delete c (foldl (mark c) (divisors s) witnesses)) (c + 1))
  | None =>
      (Some c, Sieve (<[c * c := [c]]> (divisors s)) (c + 1))
  end.

(** The values yielded by the first [n] iterations, and the state at the
    top of iteration [n]. *)
Fixpoint trace (n : nat) : list Z * sieve :=
  match n with
  | O => ([], generate_primes)
  | S n' =>
      let '(out, s) := trace n' in
      let '(o, s') := step s in
      (out ++ option_list o, s')
  end.

Definition yielded (n : nat) : list Z := fst (trace n).
Definition state_at (n : nat) : sieve := snd (trace n).

(** [next(g)]: iterate until a value is yielded; [fuel] bounds the number
    of iterations. *)
Fixpoint next (fuel : nat) (s : sieve) : option (Z * sieve) :=
  match fuel with
  | O => None
  | S fuel' =>
      match step s with
      | (Some p, s') => Some (p, s')
      | (None, s') => next fuel' s'
      end
  end.

(** The first [k] values pulled from a generator in state [s], each
    [next] with the given fuel. *)
Fixpoint pull (fuel k : nat) (s : sieve) : option (list Z) :=
  match k with
  | O => Some []
  | S k' =>
      match next fuel s with
      | None => None
      | Some (p, s') =>
          match pull fuel k' s' with
          | None => None
          | Some l => Some (p :: l)
          end
      end
  end.

(** [q] watches [k] when the candidate is [c]: [k] is the first multiple
    of [q] from [max c (q * q)] on. *)
Definition watches (c q k : Z) : Prop :=
  (q | k) /\ Z.max c (q * q) <= k < Z.max c (q * q) + q.

Definition composite (c : Z) : Prop :=
  exists a b, 1 < a /\ 1 < b /\ c = a * b.

(** The invariant of the sieve at the top of an iteration: every stored
    list is a non-empty, duplicate-free list of primes below the candidate,
    each stored at the key it watches, and every prime below the candidate
    is stored somewhere. *)
Record sieve_inv (s : sieve) : Prop := {
  inv_candidate : 2 <= candidate s;
  inv_keys : forall k l, divisors s !! k = Some l ->
    l <> [] /\ NoDup l /\
    forall q, q ∈ l -> Z.prime q /\ q < candidate s /\ watches (candidate s) q k;
  inv_primes : forall q, Z.prime q -> q < candidate s ->
    exists k l, divisors s !! k = Some l /\ q ∈ l
}.

(** ** clip and consistent_shuffle (src/mpu/__init__.py) *)

(** The objects [clip] compares: a type with the [<] of its values.
    [a > b] is read as [b < a].  The laws are those of a strict weak
    order: two different objects may compare equal, as [42] and [42.0] do.
    (A float NaN breaks them and is outside this model.) *)
Class Ordered (A : Type) := {
  less : A -> A -> bool;
  less_irrefl : forall a, less a a = false;
  less_trans : forall a b c, less a b = true -> less b c = true -> less a c = true;
  less_cotrans : forall a b c,
    less a b = true -> less a c = true \/ less c b = true
}.

(** Python integers. *)
#[export] Instance Z_ordered : Ordered Z.
Proof.
  refine {| less := Z.ltb |}.
  - intros a. apply Z.ltb_irrefl.
  - intros a b c H1 H2. apply Z.ltb_lt in H1, H2. apply Z.ltb_lt. lia.
  - intros a b c H. apply Z.ltb_lt in H.
    destruct (Z.ltb_spec a c); [left; reflexivity |].
    right. apply Z.ltb_lt. lia.
Defined.

(** [max(a, b)] is [b] only when [b > a], and [min(a, b)] is [b] only when
    [b < a]: on a tie both return their first argument. *)
Definition py_max {A} `{Ordered A} (a b : A) : A := if less a b then b else a.
Definition py_min {A} `{Ordered A} (a b : A) : A := if less b a then b else a.

(** [clip(number, lowest=None, highest=None)]. *)
Definition clip {A} `{Ordered A} (number : A) (lowest highest : option A) : A :=
  let number :=
    match lowest with
    | Some lowest => py_max number lowest
    | None => number
    end in
  match highest with
  | Some highest => py_min number highest
  | None => number
  end.

(** [consistent_shuffle], called on any number of lists.  [shuffle] stands
    for [random.shuffle],
    which rearranges [perm] in place; [None] is the [IndexError] of
    [lists[0]] or of [sublist[index]]. *)
Definition consistent_shuffle {A} (shuffle : list nat -> list nat)
    (lists : list (list A)) : option (list (list A)) :=
  match lists with
  | [] => None
  | first :: _ =>
      let perm := shuffle (seq 0 (length first)) in
      mapM (fun sublist => mapM (fun index => sublist !! index) perm) lists
  end.

(** * Properties *)

(** ** Binary64 rounding *)

Section Binary64_facts.
Import Binary64.

Lemma pow2_pos (n : Z) : 0 <= n -> 0 < 2 ^ n.
Proof. intros. apply Z.pow_pos_nonneg; lia. Qed.

Lemma ilog2_frac_spec (a b : Z) :
  1 <= b <= a ->
  0 <= ilog2_frac a b /\
  b * 2 ^ ilog2_frac a b <= a < b * 2 ^ (ilog2_frac a b + 1).
Proof.
  intros Hab. unfold ilog2_frac.
  assert (Hla := Z.log2_spec a ltac:(lia)).
  assert (Hlb := Z.log2_spec b ltac:(lia)).
  assert (Hle : Z.log2 b <= Z.log2 a) by (apply Z.log2_le_mono; lia).
  assert (Hb0 := Z.log2_nonneg b).
  set (la := Z.log2 a) in *. set (lb := Z.log2 b) in *.
  set (d := la - lb).
  assert (Hd : 0 <= d) by (unfold d; lia).
  rewrite (Z.max_l 0 (- d)) by lia. rewrite (Z.max_r 0 d) by lia.
  rewrite Z.pow_0_r, Z.mul_1_r.
  assert (Hpa : 2 ^ la = 2 ^ lb * 2 ^ d).
  { rewrite <- Z.pow_add_r by lia. f_equal. unfold d. lia. }
  assert (Hpd := pow2_pos d Hd). assert (Hpb := pow2_pos lb Hb0).
  unfold Z.succ in *.
  rewrite (Z.pow_add_r 2 la 1), Z.pow_1_r in Hla by lia.
  rewrite (Z.pow_add_r 2 lb 1), Z.pow_1_r in Hlb by lia.
  destruct (Z.ltb_spec a (b * 2 ^ d)) as [Hlt | Hge].
  - assert (Hd1 : 1 <= d).
    { destruct (Z.eq_dec d 0) as [E | E]; [| lia].
      rewrite E, Z.pow_0_r in Hlt. lia. }
    replace (d - 1 + 1) with d by lia.
    assert (Hpd' : 2 ^ d = 2 ^ (d - 1) * 2).
    { rewrite <- (Z.pow_1_r 2) at 3. rewrite <- Z.pow_add_r by lia.
      f_equal. lia. }
    assert (Hp1 := pow2_pos (d - 1) ltac:(lia)).
    split; [lia |]. split; [nia | lia].
  - rewrite (Z.pow_add_r 2 d 1), Z.pow_1_r by lia.
    split; [lia |]. split; [lia | nia].
Qed.


(** The mantissa chosen by [round_frac] is the floor of the scaled
    fraction or its successor. *)
Lemma round_frac_mant (a b : Z) :
  let e := ilog2_frac a b - 52 in
  let num := a * 2 ^ Z.max 0 (- e) in
  let den := b * 2 ^ Z.max 0 e in
  expo (round_frac a b) = e /\
  num / den <= mant (round_frac a b) <= num / den + 1 /\
  (0 < den -> num mod den = 0 -> mant (round_frac a b) = num / den).
Proof.
  unfold round_frac. cbn zeta. cbn [mant expo].
  split; [reflexivity |]. split.
  - destruct (_ || _); lia.
  - intros Hden Hmod. rewrite Hmod.
    replace (_ <? 2 * 0) with false by (symmetry; apply Z.ltb_ge; lia).
    replace (_ =? 2 * 0) with false by (symmetry; apply Z.eqb_neq; lia).
    reflexivity.
Qed.

(** The quotient the recursion continues on lies strictly between 0 and
    the dividend. *)
Lemma round_frac_trunc_bounds (a b : Z) :
  2 <= b <= a -> 1 <= trunc (round_frac a b) < a.
Proof.
  intros Hab.
  destruct (ilog2_frac_spec a b ltac:(lia)) as (HL0 & HLlo & HLhi).
  destruct (round_frac_mant a b) as (He & Hm & _).
  cbn zeta in *. unfold trunc. rewrite He.
  set (L := ilog2_frac a b) in *. set (m := mant (round_frac a b)) in *.
  destruct (Z.le_gt_cases 0 (L - 52)) as [Hpos | Hneg].
  - rewrite (Z.max_l 0 (- (L - 52))), (Z.max_r 0 (L - 52)) in Hm by lia.
    rewrite Z.pow_0_r, Z.mul_1_r in Hm.
    rewrite Z.shiftl_mul_pow2 by lia.
    assert (HP := pow2_pos (L - 52) Hpos).
    assert (HL : 2 ^ L = 2 ^ (L - 52) * 2 ^ 52).
    { rewrite <- Z.pow_add_r by lia. f_equal. lia. }
    set (P := 2 ^ (L - 52)) in *.
    assert (H52 : 0 < 2 ^ 52) by (apply pow2_pos; lia).
    assert (Hm0 : 2 ^ 52 <= a / (b * P)).
    { apply Z.div_le_lower_bound; [nia |]. rewrite HL in HLlo. nia. }
    assert (Hm1 : b * P * (a / (b * P)) <= a).
    { apply Z.mul_div_le. nia. }
    set (m0 := a / (b * P)) in *.
    split; [nia |].
    assert (m * P <= (m0 + 1) * P) by nia.
    assert ((m0 + 1) * P < 2 * m0 * P) by nia.
    assert (2 * (m0 * P) <= b * (m0 * P)) by nia.
    nia.
  - rewrite (Z.max_r 0 (- (L - 52))), (Z.max_l 0 (L - 52)) in Hm by lia.
    rewrite Z.pow_0_r, Z.mul_1_r in Hm.
    rewrite Z.shiftl_div_pow2 by lia.
    assert (HP := pow2_pos (- (L - 52)) ltac:(lia)).
    assert (HP2 : 2 <= 2 ^ (- (L - 52))).
    { change 2 with (2 ^ 1) at 1. apply Z.pow_le_mono_r; lia. }
    set (P := 2 ^ (- (L - 52))) in *.
    assert (Hm0 : P <= a * P / b).
    { apply Z.div_le_lower_bound; [lia | nia]. }
    assert (Hm1 : b * (a * P / b) <= a * P).
    { apply Z.mul_div_le. lia. }
    set (m0 := a * P / b) in *.
    split.
    + apply Z.div_le_lower_bound; lia.
    + apply Z.div_lt_upper_bound; [lia |].
      assert (2 * m0 <= a * P) by nia.
      assert (2 * 2 <= a * P) by nia.
      lia.
Qed.

(** [round_frac] rounds to nearest: the mantissa has 53 bits, it is within
    half a unit of the scaled fraction, and it is even when it is exactly
    half a unit away. *)
Lemma round_frac_nearest (a b : Z) :
  1 <= b <= a ->
  let e := ilog2_frac a b - 52 in
  let num := a * 2 ^ Z.max 0 (- e) in
  let den := b * 2 ^ Z.max 0 e in
  let m := mant (round_frac a b) in
  2 ^ 52 <= m <= 2 ^ 53 /\
  2 * Z.abs (m * den - num) <= den /\
  (2 * Z.abs (m * den - num) = den -> Z.even m = true).
Proof.
  intros Hab.
  destruct (ilog2_frac_spec a b Hab) as (HL0 & HLlo & HLhi).
  unfold round_frac. cbn zeta. cbn [mant].
  set (L := ilog2_frac a b) in *.
  set (num := a * 2 ^ Z.max 0 (- (L - 52))).
  set (den := b * 2 ^ Z.max 0 (L - 52)).
  assert (Hstep : 2 ^ (L + 1) = 2 * 2 ^ L).
  { rewrite Z.pow_add_r, Z.pow_1_r by lia. ring. }
  assert (Hscale : 0 < den /\ den * 2 ^ 52 <= num < den * (2 * 2 ^ 52)).
  { unfold num, den.
    destruct (Z.le_gt_cases 0 (L - 52)) as [Hpos | Hneg].
    - rewrite (Z.max_l 0 (- (L - 52))), (Z.max_r 0 (L - 52)) by lia.
      rewrite Z.pow_0_r, Z.mul_1_r.
      assert (HP := pow2_pos (L - 52) Hpos).
      assert (HLP : 2 ^ L = 2 ^ (L - 52) * 2 ^ 52).
      { rewrite <- Z.pow_add_r by lia. f_equal. lia. }
      split; [nia |]. split; nia.
    - rewrite (Z.max_r 0 (- (L - 52))), (Z.max_l 0 (L - 52)) by lia.
      rewrite Z.pow_0_r, Z.mul_1_r.
      assert (HP := pow2_pos (- (L - 52)) ltac:(lia)).
      assert (HLP : 2 ^ 52 = 2 ^ L * 2 ^ (- (L - 52))).
      { rewrite <- Z.pow_add_r by lia. f_equal. lia. }
      split; [lia |]. split; nia. }
  destruct Hscale as (Hden & Hlo & Hhi).
  assert (H52 : 0 < 2 ^ 52) by (apply pow2_pos; lia).
  pose proof (Z.div_mod num den ltac:(lia)) as Hdm.
  pose proof (Z.mod_pos_bound num den Hden) as Hr.
  assert (Hm0 : 2 ^ 52 <= num / den < 2 * 2 ^ 52).
  { split; [apply Z.div_le_lower_bound; lia
           | apply Z.div_lt_upper_bound; lia]. }
  change (2 ^ 53) with (2 * 2 ^ 52).
  set (m0 := num / den) in *. set (r := num mod den) in *.
  destruct (Z.ltb_spec den (2 * r)) as [Hlt | Hge]; cbn [orb].
  - split; [lia |]. split; [nia |]. intros Htie. exfalso. nia.
  - destruct (Z.eqb_spec den (2 * r)) as [Heq | Hne]; cbn [andb].
    + destruct (Z.odd m0) eqn:Hodd.
      * split; [lia |]. split; [nia |]. intros _.
        rewrite Z.even_add, <- Z.negb_odd, Hodd. reflexivity.
      * split; [lia |]. split; [nia |]. intros _.
        rewrite <- Z.negb_odd, Hodd. reflexivity.
    + split; [lia |]. split; [nia |]. intros Htie. exfalso. nia.
Qed.

(** [sqrt] rounds to nearest: the mantissa is within half a unit of the
    square root of the scaled radicand. *)
Lemma sqrt_nearest (x : float) :
  let e := (Z.log2 (mant x) + expo x) / 2 - 52 in
  let w := mant x * 2 ^ (expo x - 2 * e) in
  let m := mant (sqrt x) in
  0 < w ->
  (2 * m - 1) * (2 * m - 1) <= 4 * w <= (2 * m + 1) * (2 * m + 1).
Proof.
  cbn zeta. unfold sqrt. cbn [mant].
  set (w := mant x * 2 ^ _). intros Hw.
  pose proof (Z.sqrt_spec w ltac:(lia)) as Hs. unfold Z.succ in Hs.
  pose proof (Z.sqrt_nonneg w) as H0.
  set (m0 := Z.sqrt w) in *.
  assert (H1 : 1 <= m0) by nia.
  destruct (Z.ltb_spec ((2 * m0 + 1) * (2 * m0 + 1)) (4 * w)); nia.
Qed.

(** Rounding does not cross a power of two: a quotient of at most
    [2 ^ K] is rounded to at most [2 ^ K]. *)
Lemma round_frac_le_pow2 (a b K : Z) :
  1 <= b <= a -> a <= b * 2 ^ K -> trunc (round_frac a b) <= 2 ^ K.
Proof.
  intros Hab HK.
  destruct (ilog2_frac_spec a b Hab) as (HL0 & HLlo & HLhi).
  destruct (round_frac_mant a b) as (He & Hm & Hexact).
  cbn zeta in *. unfold trunc. rewrite He.
  set (L := ilog2_frac a b) in *. set (m := mant (round_frac a b)) in *.
  assert (HK0 : 0 <= K).
  { destruct (Z.le_gt_cases 0 K) as [? | Hneg]; [assumption |].
    rewrite Z.pow_neg_r in HK by assumption. lia. }
  assert (HpL := pow2_pos L HL0).
  assert (HLK : L <= K).
  { apply (Z.pow_le_mono_r_iff 2); [lia | assumption |]. nia. }
  assert (Hstep : 2 ^ (L + 1) = 2 * 2 ^ L).
  { rewrite Z.pow_add_r, Z.pow_1_r by lia. ring. }
  assert (Hmono : L < K -> 2 ^ (L + 1) <= 2 ^ K).
  { intros. apply Z.pow_le_mono_r; lia. }
  destruct (Z.le_gt_cases 0 (L - 52)) as [Hpos | Hneg].
  - rewrite (Z.max_l 0 (- (L - 52))), (Z.max_r 0 (L - 52)) in * by lia.
    rewrite Z.pow_0_r, Z.mul_1_r in *.
    rewrite Z.shiftl_mul_pow2 by lia.
    assert (HP := pow2_pos (L - 52) Hpos).
    assert (HLP : 2 ^ L = 2 ^ (L - 52) * 2 ^ 52).
    { rewrite <- Z.pow_add_r by lia. f_equal. lia. }
    set (P := 2 ^ (L - 52)) in *.
    assert (H52 : 0 < 2 ^ 52) by (apply pow2_pos; lia).
    destruct (Z.eq_dec L K) as [E | E].
    + rewrite <- E in HK. assert (Ea : a = 2 ^ 52 * (b * P)) by nia.
      rewrite Hexact.
      * rewrite Ea, Z.div_mul by nia. rewrite <- E. lia.
      * nia.
      * rewrite Ea. apply Z.mod_mul. nia.
    + assert (Hm0 : a / (b * P) < 2 * 2 ^ 52).
      { apply Z.div_lt_upper_bound; [nia |]. nia. }
      specialize (Hmono ltac:(lia)). nia.
  - rewrite (Z.max_r 0 (- (L - 52))), (Z.max_l 0 (L - 52)) in * by lia.
    rewrite Z.pow_0_r, Z.mul_1_r in *.
    rewrite Z.shiftl_div_pow2 by lia.
    assert (HP := pow2_pos (- (L - 52)) ltac:(lia)).
    assert (HLP : 2 ^ 52 = 2 ^ L * 2 ^ (- (L - 52))).
    { rewrite <- Z.pow_add_r by lia. f_equal. lia. }
    set (P := 2 ^ (- (L - 52))) in *.
    apply Z.div_le_upper_bound; [lia |].
    destruct (Z.eq_dec L K) as [E | E].
    + rewrite <- E in *. assert (Ea : a * P = 2 ^ 52 * b) by nia.
      rewrite Hexact.
      * rewrite Ea, Z.div_mul by lia. lia.
      * lia.
      * rewrite Ea. apply Z.mod_mul. lia.
    + assert (Hm0 : a * P / b < 2 * 2 ^ 52).
      { apply Z.div_lt_upper_bound; [lia |]. nia. }
      specialize (Hmono ltac:(lia)). nia.
Qed.


(** A quotient below [2 ^ 53] that is an integer is represented
    exactly. *)
Lemma round_frac_exact (b q : Z) :
  1 <= b -> 1 <= q < 2 ^ 53 ->
  round_frac (q * b) b = Float (q * 2 ^ (52 - Z.log2 q)) (Z.log2 q - 52).
Proof.
  intros Hb Hq.
  destruct (ilog2_frac_spec (q * b) b ltac:(nia)) as (HL0 & HLlo & HLhi).
  assert (HL : ilog2_frac (q * b) b = Z.log2 q).
  { symmetry. apply Z.log2_unique; [lia |].
    assert (0 < 2 ^ ilog2_frac (q * b) b) by (apply pow2_pos; lia).
    unfold Z.succ. split; nia. }
  assert (Hl52 : Z.log2 q < 53) by (apply Z.log2_lt_pow2; lia).
  assert (Hl0 := Z.log2_nonneg q).
  unfold round_frac. cbn zeta. rewrite HL.
  rewrite (Z.max_r 0 (- (Z.log2 q - 52))), (Z.max_l 0 (Z.log2 q - 52)) by lia.
  rewrite Z.pow_0_r, Z.mul_1_r.
  replace (- (Z.log2 q - 52)) with (52 - Z.log2 q) by lia.
  replace (q * b * 2 ^ (52 - Z.log2 q)) with (q * 2 ^ (52 - Z.log2 q) * b)
    by ring.
  rewrite Z.div_mul by lia. rewrite Z.mod_mul by lia.
  replace (b <? 2 * 0) with false by (symmetry; apply Z.ltb_ge; lia).
  replace (b =? 2 * 0) with false by (symmetry; apply Z.eqb_neq; lia).
  reflexivity.
Qed.

Lemma trunc_exact (q : Z) :
  1 <= q < 2 ^ 53 ->
  trunc (Float (q * 2 ^ (52 - Z.log2 q)) (Z.log2 q - 52)) = q.
Proof.
  intros Hq.
  assert (Hl52 : Z.log2 q < 53) by (apply Z.log2_lt_pow2; lia).
  unfold trunc. cbn [mant expo].
  rewrite Z.shiftl_div_pow2 by lia.
  replace (- (Z.log2 q - 52)) with (52 - Z.log2 q) by lia.
  apply Z.div_mul. assert (0 < 2 ^ (52 - Z.log2 q)) by (apply pow2_pos; lia).
  lia.
Qed.

End Binary64_facts.

(** Some quotients and square roots, as CPython computes them. *)
Example truediv_rounds_to_even :
  int_truediv (2 ^ 54 + 2) 2 = Ok (Binary64.Float (2 ^ 52) 1).
Proof. vm_compute. reflexivity. Qed.

Example truediv_inexact :
  bind (int_truediv (10 ^ 30) 7) (fun q => Ok (Binary64.trunc q))
  = Ok 142857142857142852444009529344.
Proof. vm_compute. reflexivity. Qed.

Example pow_half_of_2_pow_53_minus_1 :
  bind (pow_half (2 ^ 53 - 1)) (fun r => Ok (Binary64.ceil r)) = Ok 94906266.
Proof. vm_compute. reflexivity. Qed.

Example float_of_int_too_large : float_of_int (2 ^ 1024 - 1) = Raise OverflowError.
Proof. vm_compute. reflexivity. Qed.

(** [number / i] followed by [int] is the exact quotient as long as the
    quotient is below [2 ^ 53]. *)
Lemma int_truediv_exact (i q : Z) :
  1 <= i -> 1 <= q < 2 ^ 53 ->
  exists x, int_truediv (q * i) i = Ok x /\ Binary64.trunc x = q.
Proof.
  intros Hi Hq. unfold int_truediv.
  rewrite round_frac_exact by lia.
  unfold Binary64.overflows. rewrite trunc_exact by lia.
  replace (2 ^ 1024 <=? q) with false.
  - eexists. split; [reflexivity | apply trunc_exact; lia].
  - symmetry. apply Z.leb_gt.
    assert (2 ^ 53 < 2 ^ 1024) by (apply Z.pow_lt_mono_r; lia). lia.
Qed.

(** ** The scan bound *)

Section scan_bound.
Import Binary64.

Lemma float_of_int_exact (n : Z) :
  1 <= n < 2 ^ 53 ->
  float_of_int n = Ok (Float (n * 2 ^ (52 - Z.log2 n)) (Z.log2 n - 52)).
Proof.
  intros Hn. unfold float_of_int.
  pose proof (round_frac_exact 1 n ltac:(lia) Hn) as E.
  rewrite Z.mul_1_r in E. rewrite E.
  unfold overflows. rewrite trunc_exact by lia.
  replace (2 ^ 1024 <=? n) with false; [reflexivity |].
  symmetry. apply Z.leb_gt.
  assert (2 ^ 53 < 2 ^ 1024) by (apply Z.pow_lt_mono_r; lia). lia.
Qed.

Lemma sqrt_scaled (n T : Z) :
  0 <= n -> 0 < T ->
  Z.sqrt n * T <= Z.sqrt (n * (T * T)) < (Z.sqrt n + 1) * T.
Proof.
  intros Hn HT.
  assert (Hk := Z.sqrt_spec n Hn).
  assert (Hm := Z.sqrt_spec (n * (T * T)) ltac:(nia)).
  assert (Hk0 := Z.sqrt_nonneg n).
  assert (Hm0 := Z.sqrt_nonneg (n * (T * T))).
  unfold Z.succ in *.
  set (k := Z.sqrt n) in *. set (m := Z.sqrt (n * (T * T))) in *.
  split.
  - destruct (Z.le_gt_cases (k * T) m) as [? | Hgt]; [assumption |].
    exfalso. assert (m + 1 <= k * T) by lia.
    assert ((m + 1) * (m + 1) <= (k * T) * (k * T)) by nia. nia.
  - destruct (Z.lt_ge_cases m ((k + 1) * T)) as [? | Hge]; [assumption |].
    exfalso.
    assert (((k + 1) * T) * ((k + 1) * T) <= m * m) by nia. nia.
Qed.

(** Below [2 ^ 53] the scan stops at the floor or at the ceiling of the
    square root, and at the floor when [number] is a square. *)
Lemma scan_stop_small (n : Z) :
  1 <= n < 2 ^ 53 ->
  exists stop, scan_stop n = Ok stop /\
    Z.sqrt n <= stop /\ (stop - 1) * (stop - 1) < n.
Proof.
  intros Hn. unfold scan_stop, pow_half.
  rewrite float_of_int_exact by assumption. cbn [bind].
  assert (HL0 := Z.log2_nonneg n).
  assert (HL53 : Z.log2 n < 53) by (apply Z.log2_lt_pow2; lia).
  set (L := Z.log2 n) in *.
  assert (Hh : 0 <= L / 2 <= 26).
  { split; [apply Z.div_pos; lia |].
    apply Z.div_le_upper_bound; lia. }
  assert (Hh2 : 2 * (L / 2) <= L) by (apply Z.mul_div_le; lia).
  assert (Hmant : Z.log2 (n * 2 ^ (52 - L)) = 52).
  { rewrite Z.log2_mul_pow2 by lia. fold L. lia. }
  unfold sqrt, ceil. cbn [mant expo]. rewrite Hmant.
  replace ((52 + (L - 52)) / 2) with (L / 2) by (f_equal; lia).
  set (h := L / 2) in *.
  replace (L - 52 - 2 * (h - 52)) with ((52 - h) + (L - h)) by lia.
  assert (Hw : n * 2 ^ (52 - L) * 2 ^ (52 - h + (L - h))
               = n * (2 ^ (52 - h) * 2 ^ (52 - h))).
  { rewrite <- Z.mul_assoc. f_equal.
    rewrite <- !Z.pow_add_r by lia. f_equal. lia. }
  rewrite Hw.
  assert (HT := pow2_pos (52 - h) ltac:(lia)).
  set (T := 2 ^ (52 - h)) in *.
  destruct (sqrt_scaled n T ltac:(lia) HT) as [Hlo Hhi].
  assert (Hk := Z.sqrt_spec n ltac:(lia)). unfold Z.succ in Hk.
  assert (Hm := Z.sqrt_spec (n * (T * T)) ltac:(nia)). unfold Z.succ in Hm.
  assert (Hk1 : 1 <= Z.sqrt n).
  { destruct (Z.le_gt_cases 1 (Z.sqrt n)); [assumption | nia]. }
  set (k := Z.sqrt n) in *. set (m0 := Z.sqrt (n * (T * T))) in *.
  eexists. split; [reflexivity |].
  rewrite Z.shiftl_div_pow2 by lia.
  replace (- (h - 52)) with (52 - h) by lia. fold T.
  destruct (Z.ltb_spec ((2 * m0 + 1) * (2 * m0 + 1)) (4 * (n * (T * T))))
    as [Hup | Hdown].
  - (* rounded up: [number] is not a square *)
    assert (Hns : k * k < n).
    { destruct (Z.eq_dec (k * k) n) as [E | ?]; [| lia].
      exfalso.
      assert (m0 * m0 <= (k * T) * (k * T)) by nia.
      assert (m0 <= k * T) by nia. nia. }
    assert (Hc1 : (- (m0 + 1)) / T <= - k).
    { apply Z.div_le_upper_bound; [lia | nia]. }
    assert (Hc2 : - (k + 1) <= (- (m0 + 1)) / T).
    { apply Z.div_le_lower_bound; [lia | nia]. }
    split; [lia | nia].
  - assert (Hc1 : (- m0) / T <= - k).
    { apply Z.div_le_upper_bound; [lia | nia]. }
    assert (Hc2 : - (k + 1) <= (- m0) / T).
    { apply Z.div_le_lower_bound; [lia | nia]. }
    split; [lia |].
    destruct (Z.eq_dec (- (- m0 / T)) k) as [E | ?]; [nia |].
    assert (E : - (- m0 / T) = k + 1) by lia. rewrite E.
    replace (k + 1 - 1) with k by lia.
    destruct (Z.eq_dec (k * k) n) as [Esq | ?]; [| lia].
    exfalso.
    assert (Em : m0 = k * T).
    { assert (m0 * m0 <= (k * T) * (k * T)) by nia.
      assert (m0 <= k * T) by nia. lia. }
    assert (Ed : - m0 / T = - k).
    { rewrite Em. replace (- (k * T)) with ((- k) * T) by ring.
      apply Z.div_mul. lia. }
    lia.
Qed.

End scan_bound.

(** ** The trial-division loop *)

Lemma trial_spec (number i : Z) (n : nat) :
  match trial number i n with
  | Hit j =>
      i <= j < i + Z.of_nat n /\ number mod j = 0 /\
      forall x, i <= x < j -> number mod x <> 0
  | Exhausted => forall x, i <= x < i + Z.of_nat n -> number mod x <> 0
  end.
Proof.
  revert i. induction n as [| n IH]; intros i.
  - cbn [trial]. intros x Hx. lia.
  - cbn [trial]. destruct (Z.eqb_spec (number mod i) 0) as [E | E].
    + split; [lia |]. split; [assumption |]. intros x Hx. lia.
    + specialize (IH (i + 1)). destruct (trial number (i + 1) n) as [j |].
      * destruct IH as (Hj & Hmod & Hmin).
        split; [lia |]. split; [assumption |].
        intros x Hx. destruct (Z.eq_dec x i) as [-> | ?]; [assumption |].
        apply Hmin. lia.
      * intros x Hx. destruct (Z.eq_dec x i) as [-> | ?]; [assumption |].
        apply IH. lia.
Qed.

Lemma tested_range (number i : Z) (n : nat) (x : Z) :
  In x (tested number i n) -> i <= x < i + Z.of_nat n.
Proof.
  revert i. induction n as [| n IH]; intros i; cbn [tested].
  - intros [].
  - intros [<- | Hin]; [lia |].
    destruct (number mod i =? 0); [destruct Hin |].
    apply IH in Hin. lia.
Qed.

(** A divisor found by the scan is at least 2 and at most [number]. *)
Lemma trial_hit_bounds (number stop i : Z) :
  0 < number -> trial number 2 (range_len stop) = Hit i ->
  2 <= i <= number /\ i <= stop /\ number mod i = 0 /\
  forall x, 2 <= x < i -> number mod x <> 0.
Proof.
  intros Hn Hhit.
  pose proof (trial_spec number 2 (range_len stop)) as Hs.
  rewrite Hhit in Hs. destruct Hs as (Hi & Hmod & Hmin).
  unfold range_len in Hi.
  assert (Hdiv : (i | number)) by (apply Z.mod_divide; [lia | assumption]).
  apply Z.divide_pos_le in Hdiv; [| lia].
  repeat split; try assumption; lia.
Qed.

Lemma trial_exhausted (number stop : Z) :
  trial number 2 (range_len stop) = Exhausted ->
  forall x, 2 <= x <= stop -> number mod x <> 0.
Proof.
  intros Hex x Hx.
  pose proof (trial_spec number 2 (range_len stop)) as Hs.
  rewrite Hex in Hs. apply Hs. unfold range_len. lia.
Qed.

(** ** Fuel *)

Lemma prepend_Some (x : Z) (o : option (result (list Z))) (r : result (list Z)) :
  prepend x o = Some r ->
  exists r0, o = Some r0 /\
    r = match r0 with Ok l => Ok (x :: l) | Raise e => Raise e end.
Proof.
  destruct o as [[l | e] |]; cbn; intros H; inversion H; eauto.
Qed.

(** More fuel never changes a result. *)
Lemma factorize_fuel_mono (f f' : nat) (v : pyval) (r : result (list Z)) :
  (f <= f')%nat -> factorize_fuel f v = Some r -> factorize_fuel f' v = Some r.
Proof.
  revert f' v r. induction f as [| f IH]; intros f' v r Hle H.
  - discriminate.
  - destruct f' as [| f']; [lia |].
    cbn [factorize_fuel] in *.
    destruct v as [number | | |]; try assumption.
    destruct (number <? 0).
    + apply prepend_Some in H as (r0 & H0 & ->).
      rewrite (IH f' _ r0) by (assumption || lia). destruct r0; reflexivity.
    + destruct (number =? 0); [assumption |].
      destruct (scan_stop number) as [stop |]; [| assumption].
      destruct (trial number 2 (range_len stop)) as [i |]; [| assumption].
      destruct (i =? number); [assumption |].
      destruct (int_truediv number i) as [q |]; [| assumption].
      apply prepend_Some in H as (r0 & H0 & ->).
      rewrite (IH f' _ r0) by (assumption || lia). destruct r0; reflexivity.
Qed.

Lemma int_truediv_trunc (a b : Z) (q : Binary64.float) :
  2 <= b <= a -> int_truediv a b = Ok q -> 1 <= Binary64.trunc q < a.
Proof.
  unfold int_truediv. intros Hab H.
  destruct (Binary64.overflows _); [discriminate |].
  inversion H; subst q. apply round_frac_trunc_bounds. assumption.
Qed.

(** The quotient needs at least one binary digit less than the
    dividend. *)
Lemma int_truediv_log2_up (a b : Z) (q : Binary64.float) :
  2 <= b <= a -> int_truediv a b = Ok q ->
  Z.log2_up (Binary64.trunc q) < Z.log2_up a.
Proof.
  intros Hab H. pose proof (int_truediv_trunc a b q Hab H) as Hq.
  unfold int_truediv in H.
  destruct (Binary64.overflows _); [discriminate |].
  inversion H; subst q. clear H.
  destruct (Z.log2_up_spec a ltac:(lia)) as [_ Hup].
  assert (Hpos : 0 < Z.log2_up a) by (apply Z.log2_up_pos; lia).
  assert (Hhalf : 2 ^ Z.log2_up a = 2 * 2 ^ (Z.log2_up a - 1)).
  { rewrite <- (Z.pow_1_r 2) at 2. rewrite <- Z.pow_add_r by lia.
    f_equal. lia. }
  assert (Hle : Binary64.trunc (Binary64.round_frac a b)
                <= 2 ^ (Z.log2_up a - 1)).
  { apply round_frac_le_pow2; [lia |].
    assert (0 < 2 ^ (Z.log2_up a - 1)) by (apply pow2_pos; lia). nia. }
  apply Z.log2_up_le_pow2 in Hle; lia.
Qed.

(** A call on a non-negative integer needs at most one frame per binary
    digit. *)
Lemma factorize_fuel_nonneg (f : nat) (n : Z) :
  0 <= n -> (Z.to_nat (Z.log2_up n) < f)%nat ->
  exists r, factorize_fuel f (PyInt n) = Some r.
Proof.
  revert n. induction f as [| f IH]; intros n Hn Hf; [lia |].
  cbn [factorize_fuel].
  destruct (Z.ltb_spec n 0); [lia |].
  destruct (Z.eqb_spec n 0); [eauto |].
  destruct (scan_stop n) as [stop |]; [| eauto].
  destruct (trial n 2 (range_len stop)) as [i |] eqn:Ht; [| eauto].
  destruct (Z.eqb_spec i n); [eauto |].
  destruct (int_truediv n i) as [q |] eqn:Hq; [| eauto].
  apply trial_hit_bounds in Ht as (Hi & _); [| lia].
  pose proof (int_truediv_log2_up n i q ltac:(lia) Hq) as Hlog.
  apply int_truediv_trunc in Hq; [| lia].
  pose proof (Z.log2_up_nonneg (Binary64.trunc q)).
  destruct (IH (Binary64.trunc q)) as [[l | e] Hr]; [lia | lia | |];
    rewrite Hr; cbn; eauto.
Qed.

Lemma factorize_fuel_total (f : nat) (v : pyval) :
  (depth_bound v <= f)%nat -> exists r, factorize_fuel f v = Some r.
Proof.
  destruct v as [n | | |]; cbn [depth_bound]; intros Hf;
    try solve [destruct f; [lia | cbn; eauto]].
  destruct (Z.ltb_spec n 0) as [Hneg | Hpos].
  - destruct f as [| f]; [lia |]. cbn [factorize_fuel].
    destruct (Z.ltb_spec n 0); [| lia].
    replace (Z.abs n) with (n * -1) in Hf by lia.
    destruct (factorize_fuel_nonneg f (n * -1)) as [[l | e] Hr];
      [lia | lia | |]; rewrite Hr; cbn; eauto.
  - replace (Z.abs n) with n in Hf by lia.
    apply factorize_fuel_nonneg; lia.
Qed.

Lemma factorize_total (v : pyval) : exists r, factorize v = Some r.
Proof. apply factorize_fuel_total. reflexivity. Qed.

(** [factorize] agrees with every run that has enough fuel. *)
Lemma factorize_fuel_enough (f : nat) (v : pyval) :
  (depth_bound v <= f)%nat -> factorize_fuel f v = factorize v.
Proof.
  intros Hf. destruct (factorize_total v) as [r Hr]. rewrite Hr.
  eapply factorize_fuel_mono; eassumption.
Qed.

Lemma factorize_fuel_enough_nonneg (f : nat) (n : Z) :
  0 <= n -> (Z.to_nat (Z.log2_up n) < f)%nat ->
  factorize_fuel f (PyInt n) = factorize (PyInt n).
Proof.
  intros Hn Hf.
  destruct (factorize_fuel_nonneg (S (Z.to_nat (Z.log2_up n))) n Hn
              ltac:(lia)) as [r Hr].
  assert (Hle : (S (Z.to_nat (Z.log2_up n)) <= f)%nat) by lia.
  rewrite (factorize_fuel_mono _ f _ r Hle Hr).
  symmetry.
  apply (factorize_fuel_mono (S (Z.to_nat (Z.log2_up n)))); [| assumption].
  cbn [depth_bound]. replace (Z.abs n) with n by lia. lia.
Qed.

(** ** The equations of [factorize] *)

Lemma factorize_not_int (v : pyval) :
  (forall z, v <> PyInt z) -> factorize v = Some (Raise InvalidInputError).
Proof. destruct v; intros H; try reflexivity. destruct (H z). reflexivity. Qed.

Lemma factorize_zero : factorize (PyInt 0) = Some (Raise ZeroFactorizationError).
Proof. reflexivity. Qed.

Lemma factorize_fuel_S (f : nat) (v : pyval) :
  factorize_fuel (S f) v =
  match v with
  | PyInt number =>
      if number <? 0 then
        prepend (-1) (factorize_fuel f (PyInt (number * -1)))
      else if number =? 0 then Some (Raise ZeroFactorizationError)
      else
        match scan_stop number with
        | Raise e => Some (Raise e)
        | Ok stop =>
            match trial number 2 (range_len stop) with
            | Hit i =>
                if i =? number then Some (Ok [i])
                else
                  match int_truediv number i with
                  | Raise e => Some (Raise e)
                  | Ok q =>
                      prepend i (factorize_fuel f (PyInt (Binary64.trunc q)))
                  end
            | Exhausted => Some (Ok [number])
            end
        end
  | _ => Some (Raise InvalidInputError)
  end.
Proof. reflexivity. Qed.

Lemma factorize_neg (n : Z) :
  n < 0 -> factorize (PyInt n) = prepend (-1) (factorize (PyInt (- n))).
Proof.
  intros Hn. unfold factorize at 1. cbn [depth_bound].
  rewrite factorize_fuel_S.
  destruct (Z.ltb_spec n 0); [| lia].
  replace (n * -1) with (- n) by lia.
  replace (Z.abs n) with (- n) by lia.
  rewrite factorize_fuel_enough_nonneg by lia. reflexivity.
Qed.

Lemma factorize_pos (n : Z) :
  0 < n ->
  factorize (PyInt n) =
  match scan_stop n with
  | Raise e => Some (Raise e)
  | Ok stop =>
      match trial n 2 (range_len stop) with
      | Hit i =>
          if i =? n then Some (Ok [i])
          else
            match int_truediv n i with
            | Raise e => Some (Raise e)
            | Ok q => prepend i (factorize (PyInt (Binary64.trunc q)))
            end
      | Exhausted => Some (Ok [n])
      end
  end.
Proof.
  intros Hn. unfold factorize at 1. cbn [depth_bound].
  rewrite factorize_fuel_S.
  destruct (Z.ltb_spec n 0); [lia |].
  destruct (Z.eqb_spec n 0); [lia |].
  destruct (scan_stop n) as [stop |]; [| reflexivity].
  destruct (trial n 2 (range_len stop)) as [i |] eqn:Ht; [| reflexivity].
  destruct (Z.eqb_spec i n); [reflexivity |].
  destruct (int_truediv n i) as [q |] eqn:Hq; [| reflexivity].
  apply trial_hit_bounds in Ht as (Hi & _); [| lia].
  pose proof (int_truediv_log2_up n i q ltac:(lia) Hq) as Hlog.
  apply int_truediv_trunc in Hq; [| lia].
  pose proof (Z.log2_up_nonneg (Binary64.trunc q)).
  replace (Z.abs n) with n by lia.
  rewrite factorize_fuel_enough_nonneg by lia. reflexivity.
Qed.

(** The shape of a call on a positive integer, for case analysis. *)
Inductive call_shape (n : Z) : option (result (list Z)) -> Prop :=
| shape_overflow :
    scan_stop n = Raise OverflowError ->
    call_shape n (Some (Raise OverflowError))
| shape_self stop :
    scan_stop n = Ok stop -> trial n 2 (range_len stop) = Hit n ->
    call_shape n (Some (Ok [n]))
| shape_none stop :
    scan_stop n = Ok stop -> trial n 2 (range_len stop) = Exhausted ->
    call_shape n (Some (Ok [n]))
| shape_div_overflow stop i :
    scan_stop n = Ok stop -> trial n 2 (range_len stop) = Hit i -> i <> n ->
    int_truediv n i = Raise OverflowError ->
    call_shape n (Some (Raise OverflowError))
| shape_rec stop i q :
    scan_stop n = Ok stop -> trial n 2 (range_len stop) = Hit i -> i <> n ->
    int_truediv n i = Ok q -> 1 <= Binary64.trunc q < n ->
    call_shape n (prepend i (factorize (PyInt (Binary64.trunc q)))).

Lemma scan_stop_error (n : Z) (e : exn) :
  scan_stop n = Raise e -> e = OverflowError.
Proof.
  unfold scan_stop, pow_half, float_of_int.
  destruct (Binary64.overflows _); cbn; congruence.
Qed.

Lemma int_truediv_error (a b : Z) (e : exn) :
  int_truediv a b = Raise e -> e = OverflowError.
Proof.
  unfold int_truediv. destruct (Binary64.overflows _); congruence.
Qed.

Lemma factorize_shape (n : Z) : 0 < n -> call_shape n (factorize (PyInt n)).
Proof.
  intros Hn. rewrite factorize_pos by assumption.
  destruct (scan_stop n) as [stop | e] eqn:Hs.
  - destruct (trial n 2 (range_len stop)) as [i |] eqn:Ht.
    + destruct (Z.eqb_spec i n) as [-> | Hne].
      * eapply shape_self; eassumption.
      * destruct (int_truediv n i) as [q | e] eqn:Hq.
        -- eapply shape_rec; try eassumption.
           apply trial_hit_bounds in Ht as (Hi & _); [| lia].
           eapply int_truediv_trunc; [| eassumption]. lia.
        -- pose proof (int_truediv_error _ _ _ Hq) as ->.
           eapply shape_div_overflow; eassumption.
    + eapply shape_none; eassumption.
  - pose proof (scan_stop_error _ _ Hs) as ->. apply shape_overflow. assumption.
Qed.

(** Strong induction on the positive argument of [factorize]. *)
Lemma positive_call_ind (P : Z -> Prop) :
  (forall n, 0 < n -> (forall m, 0 < m < n -> P m) -> P n) ->
  forall n, 0 < n -> P n.
Proof.
  intros Hstep n Hn.
  assert (H : forall x, 0 <= x -> 0 < x -> P x).
  { apply (Z_lt_induction (fun x => 0 < x -> P x)).
    intros x IH Hx. apply Hstep; [assumption |].
    intros m Hm. apply IH; lia. }
  apply H; lia.
Qed.

(** ** What [factorize] returns *)

Lemma prepend_Ok (x : Z) (o : option (result (list Z))) (l : list Z) :
  prepend x o = Some (Ok l) -> exists l', o = Some (Ok l') /\ l = x :: l'.
Proof.
  intros H. apply prepend_Some in H as ([l' | e] & -> & H); inversion H; eauto.
Qed.

Lemma prepend_Raise (x : Z) (o : option (result (list Z))) (e : exn) :
  prepend x o = Some (Raise e) -> o = Some (Raise e).
Proof.
  intros H. apply prepend_Some in H as ([l' | e'] & -> & H); inversion H; eauto.
Qed.

(** On a positive integer the only possible exception is the overflow of
    a float conversion. *)
Lemma factorize_pos_error (n : Z) (e : exn) :
  0 < n -> factorize (PyInt n) = Some (Raise e) -> e = OverflowError.
Proof.
  intros Hn. revert e. pattern n. revert n Hn. apply positive_call_ind.
  intros n Hn IH e H.
  destruct (factorize_shape n Hn); try congruence.
  apply prepend_Raise in H. eapply IH; [| eassumption]. lia.
Qed.

(** A returned list is never empty, and on a positive integer a
    one-element list holds the integer itself. *)
Lemma factorize_pos_nonempty (n : Z) :
  0 < n -> factorize (PyInt n) <> Some (Ok []).
Proof.
  intros Hn H. destruct (factorize_shape n Hn); try congruence.
  apply prepend_Ok in H as (l' & _ & Hl). discriminate.
Qed.

Lemma factorize_pos_singleton (n x : Z) :
  0 < n -> factorize (PyInt n) = Some (Ok [x]) -> x = n.
Proof.
  intros Hn H. destruct (factorize_shape n Hn); try congruence.
  apply prepend_Ok in H as (l' & Hrec & Hl). inversion Hl; subst.
  exfalso. eapply factorize_pos_nonempty; [| eassumption]. lia.
Qed.

(** ** Factorization below [2 ^ 53] *)

Lemma no_divisor_prime (n : Z) :
  2 <= n -> (forall x, 2 <= x < n -> n mod x <> 0) -> Z.prime n.
Proof.
  intros Hn Hnd. split; [lia |].
  intros x Hx Hdiv. apply (Hnd x); [lia |].
  apply Z.mod_divide; [lia | assumption].
Qed.

(** A number without a divisor up to its square root is prime. *)
Lemma no_small_divisor_prime (n stop : Z) :
  2 <= n -> Z.sqrt n <= stop ->
  (forall x, 2 <= x <= stop -> n mod x <> 0) -> Z.prime n.
Proof.
  intros Hn Hstop Hnd. apply no_divisor_prime; [assumption |].
  intros x Hx Hmod.
  assert (Hdiv : (x | n)) by (apply Z.mod_divide; [lia | assumption]).
  destruct Hdiv as [y Hy].
  assert (Hk := Z.sqrt_spec n ltac:(lia)). unfold Z.succ in Hk.
  assert (Hk0 := Z.sqrt_nonneg n).
  set (k := Z.sqrt n) in *.
  assert (Hy2 : 2 <= y) by nia.
  destruct (Z.le_gt_cases x k) as [Hxk | Hxk].
  - apply (Hnd x); [lia | assumption].
  - destruct (Z.le_gt_cases y k) as [Hyk | Hyk].
    + apply (Hnd y); [lia |]. subst n. rewrite (Z.mul_comm y x).
      apply Z.mod_mul. lia.
    + assert ((k + 1) * (k + 1) <= y * x) by nia. lia.
Qed.

(** The first divisor met by an ascending scan is prime. *)
Lemma least_divisor_prime (n i : Z) :
  2 <= i -> n mod i = 0 -> (forall x, 2 <= x < i -> n mod x <> 0) -> Z.prime i.
Proof.
  intros Hi Hmod Hmin. apply no_divisor_prime; [assumption |].
  intros x Hx Hxi. apply (Hmin x); [lia |].
  apply Z.mod_divide; [lia |].
  apply Z.divide_trans with i; apply Z.mod_divide; (lia || assumption).
Qed.

Lemma factorize_exact_pos (n : Z) :
  2 <= n < 2 ^ 53 ->
  exists l, factorize (PyInt n) = Some (Ok l) /\ product l = n /\
    Forall (fun x => Z.prime x /\ (x | n)) l /\ Sorted Z.le l.
Proof.
  intros [Hn2 Hn53]. assert (Hn0 : 0 < n) by lia.
  revert Hn2 Hn53. pattern n. revert n Hn0.
  apply positive_call_ind.
  intros n Hn IH Hn2 Hn53.
  destruct (scan_stop_small n ltac:(lia)) as (stop & Hstop & Hlo & Hhi).
  rewrite factorize_pos, Hstop by assumption.
  destruct (trial n 2 (range_len stop)) as [i |] eqn:Ht.
  - apply trial_hit_bounds in Ht as (Hi & His & Hmod & Hmin); [| lia].
    assert (Hpi : Z.prime i) by (apply least_divisor_prime with n; (lia || assumption)).
    assert (Hdiv : (i | n)) by (apply Z.mod_divide; [lia | assumption]).
    destruct (Z.eqb_spec i n) as [-> | Hne].
    + exists [n]. split; [reflexivity |]. split; [| split].
      * unfold product. cbn. lia.
      * constructor; [split; assumption | constructor].
      * repeat constructor.
    + destruct Hdiv as [q Hq].
      assert (Hq2 : 2 <= q < n) by nia.
      destruct (int_truediv_exact i q ltac:(lia) ltac:(lia)) as (x & Hx & Htr).
      rewrite <- Hq in Hx. rewrite Hx, Htr.
      destruct (IH q ltac:(lia) ltac:(lia) ltac:(lia)) as (l & Hl & Hprod & Hall & Hsort).
      rewrite Hl. exists (i :: l). cbn [prepend].
      split; [reflexivity |]. split; [| split].
      * unfold product in *. cbn [fold_right]. rewrite Hprod. lia.
      * constructor; [split; [assumption | exists q; assumption] |].
        eapply Forall_impl; [exact Hall |].
        intros y [Hy Hyq]. split; [assumption |].
        apply Z.divide_trans with q; [assumption |]. exists i. lia.
      * constructor; [assumption |].
        destruct l as [| y l]; constructor.
        apply Forall_inv in Hall as [Hy Hyq].
        destruct (Z.le_gt_cases i y) as [? | Hlt]; [assumption |].
        exfalso. apply (Hmin y).
        -- destruct Hy as [Hy1 _]. lia.
        -- apply Z.mod_divide; [destruct Hy; lia |].
           apply Z.divide_trans with q; [assumption |]. exists i. lia.
  - pose proof (trial_exhausted _ _ Ht) as Hnd.
    exists [n]. split; [reflexivity |]. split; [| split].
    + unfold product. cbn. lia.
    + constructor; [split | constructor].
      * apply no_small_divisor_prime with stop; assumption.
      * apply Z.divide_refl.
    + repeat constructor.
Qed.

(** The instrumented scan lists exactly the candidates up to the hit, or
    the whole range. *)
Lemma tested_trial (number i : Z) (n : nat) :
  tested number i n =
  match trial number i n with
  | Hit j => seqZ i (j - i + 1)
  | Exhausted => seqZ i (Z.of_nat n)
  end.
Proof.
  revert i. induction n as [| n IH]; intros i; cbn [tested trial].
  - reflexivity.
  - destruct (number mod i =? 0).
    + replace (i - i + 1) with 1 by lia. reflexivity.
    + rewrite IH. pose proof (trial_spec number (i + 1) n) as Hs.
      destruct (trial number (i + 1) n) as [j |].
      * rewrite (seqZ_cons i (j - i + 1)) by lia.
        f_equal. f_equal; lia.
      * rewrite (seqZ_cons i (Z.of_nat (S n))) by lia.
        f_equal. f_equal; lia.
Qed.

Lemma scanned_range (number i : Z) :
  In i (scanned number) -> exists stop, scan_stop number = Ok stop /\ 2 <= i <= stop.
Proof.
  unfold scanned. destruct (scan_stop number) as [stop |]; [| intros []].
  intros Hin. apply tested_range in Hin. unfold range_len in Hin.
  exists stop. split; [reflexivity | lia].
Qed.

(** ** With the [pow] of any C library *)

Lemma scan_stop_with_sqrt (number : Z) :
  scan_stop_with Binary64.sqrt number = scan_stop number.
Proof.
  unfold scan_stop_with, scan_stop, pow_half.
  destruct (float_of_int number); reflexivity.
Qed.

(** With the correctly rounded root the parametric function is the one
    above. *)
Lemma factorize_fuel_with_sqrt (fuel : nat) (v : pyval) :
  factorize_fuel_with Binary64.sqrt fuel v = factorize_fuel fuel v.
Proof.
  revert v. induction fuel as [| fuel IH]; intros v; [reflexivity |].
  cbn [factorize_fuel_with factorize_fuel].
  destruct v as [number | | |]; try reflexivity.
  destruct (number <? 0); [rewrite IH; reflexivity |].
  destruct (number =? 0); [reflexivity |].
  rewrite scan_stop_with_sqrt.
  destruct (scan_stop number) as [stop |]; [| reflexivity].
  destruct (trial number 2 (range_len stop)) as [i |]; [| reflexivity].
  destruct (i =? number); [reflexivity |].
  destruct (int_truediv number i) as [q |]; [| reflexivity].
  rewrite IH. reflexivity.
Qed.

Lemma factorize_with_sqrt (v : pyval) :
  factorize_with Binary64.sqrt v = factorize v.
Proof. apply factorize_fuel_with_sqrt. Qed.


Section any_pow.

Variable pow_half_c : Binary64.float -> Binary64.float.

Lemma scan_stop_with_small (n : Z) :
  1 <= n < 2 ^ 53 -> exists stop, scan_stop_with pow_half_c n = Ok stop.
Proof.
  intros Hn. unfold scan_stop_with.
  rewrite float_of_int_exact by assumption. cbn [bind]. eauto.
Qed.

Lemma scan_stop_with_error (n : Z) (e : exn) :
  scan_stop_with pow_half_c n = Raise e -> e = OverflowError.
Proof.
  unfold scan_stop_with, float_of_int.
  destruct (Binary64.overflows _); cbn; congruence.
Qed.

Lemma factorize_fuel_with_mono (f f' : nat) (v : pyval) (r : result (list Z)) :
  (f <= f')%nat -> factorize_fuel_with pow_half_c f v = Some r ->
  factorize_fuel_with pow_half_c f' v = Some r.
Proof.
  revert f' v r. induction f as [| f IH]; intros f' v r Hle H.
  - discriminate.
  - destruct f' as [| f']; [lia |].
    cbn [factorize_fuel_with] in *.
    destruct v as [number | | |]; try assumption.
    destruct (number <? 0).
    + apply prepend_Some in H as (r0 & H0 & ->).
      rewrite (IH f' _ r0) by (assumption || lia). destruct r0; reflexivity.
    + destruct (number =? 0); [assumption |].
      destruct (scan_stop_with pow_half_c number) as [stop |]; [| assumption].
      destruct (trial number 2 (range_len stop)) as [i |]; [| assumption].
      destruct (i =? number); [assumption |].
      destruct (int_truediv number i) as [q |]; [| assumption].
      apply prepend_Some in H as (r0 & H0 & ->).
      rewrite (IH f' _ r0) by (assumption || lia). destruct r0; reflexivity.
Qed.

(** Whatever the scan bound, a call on a non-negative integer needs at
    most one frame per binary digit. *)
Lemma factorize_fuel_with_nonneg (f : nat) (n : Z) :
  0 <= n -> (Z.to_nat (Z.log2_up n) < f)%nat ->
  exists r, factorize_fuel_with pow_half_c f (PyInt n) = Some r.
Proof.
  revert n. induction f as [| f IH]; intros n Hn Hf; [lia |].
  cbn [factorize_fuel_with].
  destruct (Z.ltb_spec n 0); [lia |].
  destruct (Z.eqb_spec n 0); [eauto |].
  destruct (scan_stop_with pow_half_c n) as [stop |]; [| eauto].
  destruct (trial n 2 (range_len stop)) as [i |] eqn:Ht; [| eauto].
  destruct (Z.eqb_spec i n); [eauto |].
  destruct (int_truediv n i) as [q |] eqn:Hq; [| eauto].
  apply trial_hit_bounds in Ht as (Hi & _); [| lia].
  pose proof (int_truediv_log2_up n i q ltac:(lia) Hq) as Hlog.
  apply int_truediv_trunc in Hq; [| lia].
  pose proof (Z.log2_up_nonneg (Binary64.trunc q)).
  destruct (IH (Binary64.trunc q)) as [[l | e] Hr]; [lia | lia | |];
    rewrite Hr; cbn; eauto.
Qed.


Lemma factorize_fuel_with_enough_nonneg (f : nat) (n : Z) :
  0 <= n -> (Z.to_nat (Z.log2_up n) < f)%nat ->
  factorize_fuel_with pow_half_c f (PyInt n) = factorize_with pow_half_c (PyInt n).
Proof.
  intros Hn Hf.
  destruct (factorize_fuel_with_nonneg (S (Z.to_nat (Z.log2_up n))) n Hn
              ltac:(lia)) as [r Hr].
  assert (Hle : (S (Z.to_nat (Z.log2_up n)) <= f)%nat) by lia.
  rewrite (factorize_fuel_with_mono _ f _ r Hle Hr).
  symmetry.
  apply (factorize_fuel_with_mono (S (Z.to_nat (Z.log2_up n)))); [| assumption].
  cbn [depth_bound]. replace (Z.abs n) with n by lia. lia.
Qed.

Lemma factorize_fuel_with_S (f : nat) (v : pyval) :
  factorize_fuel_with pow_half_c (S f) v =
  match v with
  | PyInt number =>
      if number <? 0 then
        prepend (-1) (factorize_fuel_with pow_half_c f (PyInt (number * -1)))
      else if number =? 0 then Some (Raise ZeroFactorizationError)
      else
        match scan_stop_with pow_half_c number with
        | Raise e => Some (Raise e)
        | Ok stop =>
            match trial number 2 (range_len stop) with
            | Hit i =>
                if i =? number then Some (Ok [i])
                else
                  match int_truediv number i with
                  | Raise e => Some (Raise e)
                  | Ok q =>
                      prepend i
                        (factorize_fuel_with pow_half_c f
                           (PyInt (Binary64.trunc q)))
                  end
            | Exhausted => Some (Ok [number])
            end
        end
  | _ => Some (Raise InvalidInputError)
  end.
Proof. reflexivity. Qed.

Lemma factorize_with_neg (n : Z) :
  n < 0 ->
  factorize_with pow_half_c (PyInt n) =
  prepend (-1) (factorize_with pow_half_c (PyInt (- n))).
Proof.
  intros Hn. unfold factorize_with at 1. cbn [depth_bound].
  rewrite factorize_fuel_with_S.
  destruct (Z.ltb_spec n 0); [| lia].
  replace (n * -1) with (- n) by lia.
  replace (Z.abs n) with (- n) by lia.
  rewrite factorize_fuel_with_enough_nonneg by lia. reflexivity.
Qed.

Lemma factorize_with_pos (n : Z) :
  0 < n ->
  factorize_with pow_half_c (PyInt n) =
  match scan_stop_with pow_half_c n with
  | Raise e => Some (Raise e)
  | Ok stop =>
      match trial n 2 (range_len stop) with
      | Hit i =>
          if i =? n then Some (Ok [i])
          else
            match int_truediv n i with
            | Raise e => Some (Raise e)
            | Ok q =>
                prepend i (factorize_with pow_half_c (PyInt (Binary64.trunc q)))
            end
      | Exhausted => Some (Ok [n])
      end
  end.
Proof.
  intros Hn. unfold factorize_with at 1. cbn [depth_bound].
  rewrite factorize_fuel_with_S.
  destruct (Z.ltb_spec n 0); [lia |].
  destruct (Z.eqb_spec n 0); [lia |].
  destruct (scan_stop_with pow_half_c n) as [stop |]; [| reflexivity].
  destruct (trial n 2 (range_len stop)) as [i |] eqn:Ht; [| reflexivity].
  destruct (Z.eqb_spec i n); [reflexivity |].
  destruct (int_truediv n i) as [q |] eqn:Hq; [| reflexivity].
  apply trial_hit_bounds in Ht as (Hi & _); [| lia].
  pose proof (int_truediv_log2_up n i q ltac:(lia) Hq) as Hlog.
  apply int_truediv_trunc in Hq; [| lia].
  pose proof (Z.log2_up_nonneg (Binary64.trunc q)).
  replace (Z.abs n) with n by lia.
  rewrite factorize_fuel_with_enough_nonneg by lia. reflexivity.
Qed.

(** The library's square root is good enough when the scan bound it gives
    reaches the integer square root. *)
Hypothesis pow_half_c_reaches_root : forall m stop,
  2 <= m < 2 ^ 53 -> scan_stop_with pow_half_c m = Ok stop -> Z.sqrt m <= stop.

(** Then, below [2 ^ 53], the result is the ascending list of the prime
    factors, as it is with the correctly rounded root. *)
Lemma factorize_with_exact_pos (n : Z) :
  2 <= n < 2 ^ 53 ->
  exists l, factorize_with pow_half_c (PyInt n) = Some (Ok l) /\ product l = n /\
    Forall (fun x => Z.prime x /\ (x | n)) l /\ Sorted Z.le l.
Proof.
  intros [Hn2 Hn53]. assert (Hn0 : 0 < n) by lia.
  revert Hn2 Hn53. pattern n. revert n Hn0.
  apply positive_call_ind.
  intros n Hn IH Hn2 Hn53.
  destruct (scan_stop_with_small n ltac:(lia)) as (stop & Hstop).
  pose proof (pow_half_c_reaches_root n stop ltac:(lia) Hstop) as Hlo.
  rewrite factorize_with_pos, Hstop by assumption.
  destruct (trial n 2 (range_len stop)) as [i |] eqn:Ht.
  - apply trial_hit_bounds in Ht as (Hi & His & Hmod & Hmin); [| lia].
    assert (Hpi : Z.prime i) by (apply least_divisor_prime with n; (lia || assumption)).
    assert (Hdiv : (i | n)) by (apply Z.mod_divide; [lia | assumption]).
    destruct (Z.eqb_spec i n) as [-> | Hne].
    + exists [n]. split; [reflexivity |]. split; [| split].
      * unfold product. cbn. lia.
      * constructor; [split; assumption | constructor].
      * repeat constructor.
    + destruct Hdiv as [q Hq].
      assert (Hq2 : 2 <= q < n) by nia.
      destruct (int_truediv_exact i q ltac:(lia) ltac:(lia)) as (x & Hx & Htr).
      rewrite <- Hq in Hx. rewrite Hx, Htr.
      destruct (IH q ltac:(lia) ltac:(lia) ltac:(lia)) as (l & Hl & Hprod & Hall & Hsort).
      rewrite Hl. exists (i :: l). cbn [prepend].
      split; [reflexivity |]. split; [| split].
      * unfold product in *. cbn [fold_right]. rewrite Hprod. lia.
      * constructor; [split; [assumption | exists q; assumption] |].
        eapply Forall_impl; [exact Hall |].
        intros y [Hy Hyq]. split; [assumption |].
        apply Z.divide_trans with q; [assumption |]. exists i. lia.
      * constructor; [assumption |].
        destruct l as [| y l]; constructor.
        apply Forall_inv in Hall as [Hy Hyq].
        destruct (Z.le_gt_cases i y) as [? | Hlt]; [assumption |].
        exfalso. apply (Hmin y).
        -- destruct Hy as [Hy1 _]. lia.
        -- apply Z.mod_divide; [destruct Hy; lia |].
           apply Z.divide_trans with q; [assumption |]. exists i. lia.
  - pose proof (trial_exhausted _ _ Ht) as Hnd.
    exists [n]. split; [reflexivity |]. split; [| split].
    + unfold product. cbn. lia.
    + constructor; [split | constructor].
      * apply no_small_divisor_prime with stop; assumption.
      * apply Z.divide_refl.
    + repeat constructor.
Qed.

End any_pow.

(** ** Errors *)

Lemma factorize_int_error (n : Z) (e : exn) :
  factorize (PyInt n) = Some (Raise e) ->
  (n = 0 /\ e = ZeroFactorizationError) \/ (n <> 0 /\ e = OverflowError).
Proof.
  intros H. destruct (Z.lt_trichotomy n 0) as [Hn | [-> | Hn]].
  - right. split; [lia |]. rewrite factorize_neg in H by assumption.
    apply prepend_Raise in H.
    eapply factorize_pos_error; [| eassumption]. lia.
  - left. rewrite factorize_zero in H. split; congruence.
  - right. split; [lia |]. eapply factorize_pos_error; eassumption.
Qed.

Lemma is_prime_true (v : pyval) :
  is_prime v = Some (Ok true) <-> exists x, factorize v = Some (Ok [x]).
Proof.
  unfold is_prime. destruct (factorize v) as [[l | e] |].
  - destruct l as [| x [| y l]]; cbn; split;
      try (intros [z Hz]); try intros Hz; try discriminate; eauto.
  - split; [| intros [z Hz]]; discriminate.
  - split; [| intros [z Hz]]; discriminate.
Qed.

Lemma is_prime_raise (v : pyval) (e : exn) :
  is_prime v = Some (Raise e) <-> factorize v = Some (Raise e).
Proof.
  unfold is_prime. destruct (factorize v) as [[l | e'] |]; cbn;
    split; intros H; (discriminate || (inversion H; reflexivity)).
Qed.

(** The list of a negative integer has -1 in front of a non-empty list. *)
Lemma factorize_neg_shape (n : Z) (l : list Z) :
  n < 0 -> factorize (PyInt n) = Some (Ok l) ->
  exists x l', l = -1 :: x :: l' /\ factorize (PyInt (- n)) = Some (Ok (x :: l')).
Proof.
  intros Hn H. rewrite factorize_neg in H by assumption.
  apply prepend_Ok in H as (l' & Hl' & ->).
  destruct l' as [| x l'].
  - exfalso. eapply factorize_pos_nonempty; [| eassumption]. lia.
  - eauto.
Qed.

(** ** Round trip and order of the factors *)

Example factorize_8 : factorize (PyInt 8) = Some (Ok [2; 2; 2]).
Proof. lazy. reflexivity. Qed.

Example factorize_3_pow_25 : factorize (PyInt (3 ^ 25)) = Some (Ok (repeat 3 25)).
Proof. lazy. reflexivity. Qed.

(** X1 (round trip below [2 ** 53]).  Below [2 ^ 53] in magnitude every
    float operation of [factorize] is exact and the product of the result
    is the input; for a negative input the result is -1 followed by the
    list of the opposite, whose product is the opposite. *)
Lemma factorize_roundtrip_exact (n : Z) :
  2 <= Z.abs n < 2 ^ 53 ->
  exists l, factorize (PyInt n) = Some (Ok l) /\ product l = n /\
    (n < 0 -> exists l', l = -1 :: l' /\
       factorize (PyInt (- n)) = Some (Ok l') /\ product l' = - n).
Proof.
  intros Hn. destruct (Z.lt_ge_cases n 0) as [Hneg | Hpos].
  - destruct (factorize_exact_pos (- n) ltac:(lia)) as (l & Hl & Hp & _).
    exists (-1 :: l). rewrite factorize_neg, Hl by assumption.
    split; [reflexivity |]. split.
    + unfold product in *. cbn [fold_right]. rewrite Hp. lia.
    + intros _. exists l. repeat split; assumption.
  - destruct (factorize_exact_pos n ltac:(lia)) as (l & Hl & Hp & _).
    exists l. split; [assumption |]. split; [assumption |]. lia.
Qed.

(** X2 (ordered primes below [2 ** 53]).  Below [2 ^ 53] the result is
    the ascending list of the prime factors. *)
Lemma factorize_primes_sorted_exact (n : Z) :
  2 <= n < 2 ^ 53 ->
  exists l, factorize (PyInt n) = Some (Ok l) /\
    Forall Z.prime l /\ Sorted Z.le l.
Proof.
  intros Hn. destruct (factorize_exact_pos n Hn) as (l & Hl & _ & Hall & Hs).
  exists l. repeat split; try assumption.
  eapply Forall_impl; [exact Hall |]. intros x [Hx _]. exact Hx.
Qed.

(** C1 (defect of the code).  The round-trip law fails from [2 ^ 53] on:
    [number / i] is a float division, so the quotient of [2 ^ 54 + 2] by 2,
    which is [2 ^ 53 + 1], is rounded to [2 ^ 53] before [int] is applied.
    The call returns fifty-four 2s, whose product is [2 ^ 54]. *)
Theorem factorize_roundtrip_lost_by_float_division :
  factorize (PyInt (2 ^ 54 + 2)) = Some (Ok (repeat 2 54)) /\
  product (repeat 2 54) = 2 ^ 54 /\
  product (repeat 2 54) <> 2 ^ 54 + 2.
Proof.
  split; [lazy; reflexivity |]. split; [reflexivity |].
  intros H. vm_compute in H. discriminate.
Qed.

(** C2 (defect of the code).  The result is not the ordered prime
    factorization from [2 ^ 53] on: for [3 * (2 ^ 53 + 1)] the first
    divisor is 3 and the float quotient [2 ^ 53 + 1] is rounded to
    [2 ^ 53], so the call returns 3 followed by fifty-three 2s, a list
    that is neither ascending nor a factorization of the input. *)
Theorem factorize_order_lost_by_float_division :
  factorize (PyInt (3 * (2 ^ 53 + 1))) = Some (Ok (3 :: repeat 2 53)) /\
  ~ Sorted Z.le (3 :: repeat 2 53) /\
  product (3 :: repeat 2 53) <> 3 * (2 ^ 53 + 1).
Proof.
  split; [lazy; reflexivity |]. split.
  - cbn [repeat]. intros H. apply Sorted_inv in H as [_ H].
    apply HdRel_inv in H. lia.
  - intros H. vm_compute in H. discriminate.
Qed.

(** ** is_prime *)

(** From [2 ^ 1024] on the conversion to a float fails, whatever the
    sign. *)
Example is_prime_overflow :
  is_prime (PyInt (- 10 ^ 400)) = Some (Raise OverflowError).
Proof. vm_compute. reflexivity. Qed.

(** C3 (defect of the code).  [is_prime(1)] returns [True]:
    [factorize(1)] is the one-element list [[1]], which the length test
    cannot tell from the list of a prime, and 1 is not a prime. *)
Theorem is_prime_one_returns_true :
  factorize (PyInt 1) = Some (Ok [1]) /\
  is_prime (PyInt 1) = Some (Ok true) /\
  ~ Z.prime 1.
Proof.
  split; [reflexivity |]. split; [reflexivity |].
  intros [H _]. lia.
Qed.

(** ** Errors, sign and unity, termination *)

(** C5.  [factorize] raises the invalid-input error iff its argument is
    not an integer (a float is never truncated), and the zero error iff
    its argument is 0; both come out of the first frame of the call, before
    any scan or recursion; [is_prime] raises exactly what [factorize]
    raises. *)
Theorem factorize_error_taxonomy (v : pyval) :
  (factorize v = Some (Raise InvalidInputError) <-> forall z, v <> PyInt z) /\
  (factorize v = Some (Raise ZeroFactorizationError) <-> v = PyInt 0) /\
  (forall m e, factorize (PyFloat m e) = Some (Raise InvalidInputError)) /\
  ((forall z, v <> PyInt z) ->
   factorize_fuel 1 v = Some (Raise InvalidInputError)) /\
  (v = PyInt 0 -> factorize_fuel 1 v = Some (Raise ZeroFactorizationError)) /\
  (forall e, is_prime v = Some (Raise e) <-> factorize v = Some (Raise e)).
Proof.
  split; [| split; [| split; [| split; [| split]]]].
  - split.
    + intros H z ->. apply factorize_int_error in H as [[_ H] | [_ H]];
        discriminate.
    + apply factorize_not_int.
  - split.
    + destruct v as [n | | |]; try discriminate.
      intros H. apply factorize_int_error in H as [[-> _] | [_ H]];
        [reflexivity | discriminate].
    + intros ->. reflexivity.
  - reflexivity.
  - destruct v as [z | | |]; intros H; try reflexivity.
    destruct (H z). reflexivity.
  - intros ->. reflexivity.
  - intros e. apply is_prime_raise.
Qed.

(** C6.  [factorize(1)] is [[1]], [factorize(-1)] is [[-1, 1]], and for
    every negative [n], [factorize(n)] is -1 prepended to [factorize(-n)]
    (an exception of the inner call is passed on). *)
Theorem factorize_sign_and_unity :
  factorize (PyInt 1) = Some (Ok [1]) /\
  factorize (PyInt (-1)) = Some (Ok [-1; 1]) /\
  factorize (PyInt (-17)) = Some (Ok [-1; 17]) /\
  (forall n, n < 0 ->
     factorize (PyInt n) = prepend (-1) (factorize (PyInt (- n)))) /\
  (forall n l, n < 0 -> factorize (PyInt (- n)) = Some (Ok l) ->
     factorize (PyInt n) = Some (Ok (-1 :: l))).
Proof.
  split; [reflexivity |]. split; [reflexivity |].
  split; [lazy; reflexivity |]. split.
  - apply factorize_neg.
  - intros n l Hn Hl. rewrite factorize_neg, Hl by assumption. reflexivity.
Qed.

(** From [2 ^ 53] on the scan bound is that of the float square root and
    can lie above the ceiling of the exact one, here [2 ^ 54 + 3]. *)
Example scan_stop_above_ceiling :
  scan_stop ((2 ^ 54 + 3) * (2 ^ 54 + 3) - 1) = Ok (2 ^ 54 + 4).
Proof. vm_compute. reflexivity. Qed.



(** ** Primes *)

(** Divisibility is decided by [mod], so a bounded search finds a proper
    divisor or shows that there is none. *)
Lemma divisor_search (p m : Z) :
  0 <= m ->
  (forall n, 1 < n < m -> ~ (n | p)) \/ (exists n, 1 < n < m /\ (n | p)).
Proof.
  intros Hm. pattern m. apply natlike_ind; [| | assumption].
  - left. intros n Hn. lia.
  - intros x Hx [IH | (n & Hn & Hdiv)].
    + destruct (Z.le_gt_cases x 1) as [Hx1 | Hx1].
      * left. intros n Hn. lia.
      * destruct (Z.eq_dec (p mod x) 0) as [E | E].
        -- right. exists x. split; [lia |].
           apply Z.mod_divide; [lia | assumption].
        -- left. intros n Hn Hdiv.
           destruct (Z.eq_dec n x) as [-> | Hne].
           ++ apply E. apply Z.mod_divide; [lia | assumption].
           ++ apply (IH n); [lia | assumption].
    + right. exists n. split; [lia | assumption].
Qed.

Lemma prime_dec (p : Z) : Z.prime p \/ ~ Z.prime p.
Proof.
  destruct (Z.le_gt_cases p 1) as [Hp | Hp].
  - right. intros [H _]. lia.
  - destruct (divisor_search p p ltac:(lia)) as [Hnone | (n & Hn & Hdiv)].
    + left. split; assumption.
    + right. intros [_ Hpr]. apply (Hpr n); assumption.
Qed.

Lemma not_prime_divide (p : Z) :
  1 < p -> ~ Z.prime p -> exists n, 1 < n < p /\ (n | p).
Proof.
  intros Hp Hnp.
  destruct (divisor_search p p ltac:(lia)) as [Hnone | Hsome];
    [| assumption].
  exfalso. apply Hnp. split; assumption.
Qed.

Lemma prime_divisor_exists (n : Z) : 2 <= n -> exists q, Z.prime q /\ (q | n).
Proof.
  intros Hn. assert (H0 : 0 <= n) by lia. revert Hn. pattern n.
  revert n H0. apply Z_lt_induction. intros n IH Hn.
  destruct (prime_dec n) as [Hp | Hnp].
  - exists n. split; [assumption | apply Z.divide_refl].
  - destruct (not_prime_divide n ltac:(lia) Hnp) as (a & Ha & Hdiv).
    destruct (IH a ltac:(lia) ltac:(lia)) as (q & Hq & Hqa).
    exists q. split; [assumption |]. apply Z.divide_trans with a; assumption.
Qed.

(** A number that is not prime has a prime factor up to its square root. *)
Lemma small_prime_factor (c : Z) :
  2 <= c -> ~ Z.prime c -> exists q, Z.prime q /\ (q | c) /\ q * q <= c.
Proof.
  intros Hc Hnp.
  destruct (not_prime_divide c ltac:(lia) Hnp) as (a & Ha & [b Hb]).
  assert (Hb1 : 1 < b) by nia.
  destruct (Z.le_gt_cases a b) as [Hab | Hab].
  - destruct (prime_divisor_exists a ltac:(lia)) as (q & Hq & Hqa).
    exists q. split; [assumption |]. split.
    + apply Z.divide_trans with a; [assumption |]. exists b. lia.
    + pose proof (Z.prime_ge_2 q Hq).
      apply Z.divide_pos_le in Hqa; [| lia]. nia.
  - destruct (prime_divisor_exists b ltac:(lia)) as (q & Hq & Hqb).
    exists q. split; [assumption |]. split.
    + apply Z.divide_trans with b; [assumption |]. exists a. lia.
    + pose proof (Z.prime_ge_2 q Hq).
      apply Z.divide_pos_le in Hqb; [| lia]. nia.
Qed.

Lemma composite_not_prime (c : Z) : 2 <= c -> (composite c <-> ~ Z.prime c).
Proof.
  intros Hc. split.
  - intros (a & b & Ha & Hb & ->) Hp.
    destruct Hp as [_ Hp]. apply (Hp a); [nia |].
    exists b. lia.
  - intros Hnp.
    destruct (not_prime_divide c ltac:(lia) Hnp) as (a & Ha & [b Hb]).
    exists a, b. repeat split; nia.
Qed.

Lemma divide_fact (n k : nat) :
  (1 <= k <= n)%nat -> (Z.of_nat k | Z.of_nat (fact n)).
Proof.
  induction n as [| n IH]; intros Hk; [lia |].
  change (fact (S n)) with (S n * fact n)%nat. rewrite Nat2Z.inj_mul.
  destruct (Nat.eq_dec k (S n)) as [-> | Hne].
  - exists (Z.of_nat (fact n)). lia.
  - destruct (IH ltac:(lia)) as [x Hx]. rewrite Hx.
    exists (Z.of_nat (S n) * x). ring.
Qed.

(** There are primes above every bound. *)
Lemma primes_unbounded (n : Z) : exists p, Z.prime p /\ n < p.
Proof.
  set (m := Z.to_nat n).
  assert (Hf : 1 <= Z.of_nat (fact m)).
  { pose proof (fact_neq_0 m). lia. }
  destruct (prime_divisor_exists (Z.of_nat (fact m) + 1) ltac:(lia))
    as (q & Hq & Hdiv).
  exists q. split; [assumption |].
  pose proof (Z.prime_ge_2 q Hq) as Hq2.
  destruct (Z.lt_ge_cases n q) as [? | Hle]; [assumption |].
  exfalso.
  assert (Hqf : (q | Z.of_nat (fact m))).
  { replace q with (Z.of_nat (Z.to_nat q)) by lia.
    apply divide_fact. unfold m. lia. }
  assert (Hq1 : (q | 1)).
  { replace 1 with (Z.of_nat (fact m) + 1 - Z.of_nat (fact m)) by lia.
    apply Z.divide_sub_r; assumption. }
  apply Z.divide_1_r_nonneg in Hq1; lia.
Qed.

(** The first prime from [c] on. *)
Lemma least_prime_from (c : Z) :
  exists d : nat, Z.prime (c + Z.of_nat d) /\
    forall j : nat, (j < d)%nat -> ~ Z.prime (c + Z.of_nat j).
Proof.
  destruct (primes_unbounded c) as (p & Hp & Hcp).
  assert (H : forall (d : nat) c, Z.prime (c + Z.of_nat d) ->
            exists d' : nat, Z.prime (c + Z.of_nat d') /\
              forall j : nat, (j < d')%nat -> ~ Z.prime (c + Z.of_nat j)).
  { clear. induction d as [| d IH]; intros c Hp.
    - exists O. split; [assumption | lia].
    - destruct (prime_dec c) as [Hc | Hc].
      + exists O. split; [rewrite Z.add_0_r; assumption | lia].
      + destruct (IH (c + 1)) as (d' & Hd' & Hmin).
        { replace (c + 1 + Z.of_nat d) with (c + Z.of_nat (S d)) by lia.
          assumption. }
        exists (S d'). split.
        * replace (c + Z.of_nat (S d')) with (c + 1 + Z.of_nat d') by lia.
          assumption.
        * intros [| j] Hj; [rewrite Z.add_0_r; assumption |].
          replace (c + Z.of_nat (S j)) with (c + 1 + Z.of_nat j) by lia.
          apply Hmin. lia. }
  apply (H (Z.to_nat (p - c))).
  replace (c + Z.of_nat (Z.to_nat (p - c))) with p by lia. assumption.
Qed.

(** ** Watched keys *)

Lemma watches_unique (c q k1 k2 : Z) :
  0 < q -> watches c q k1 -> watches c q k2 -> k1 = k2.
Proof.
  intros Hq ([a Ha] & H1) ([b Hb] & H2). subst k1 k2.
  assert (a = b) by nia. subst. reflexivity.
Qed.

(** A key other than the candidate stays watched when the candidate
    advances. *)
Lemma watches_keep (c q k : Z) :
  watches c q k -> k <> c -> watches (c + 1) q k.
Proof. unfold watches. intros (Hd & Hk) Hne. split; [assumption | lia]. Qed.

(** A witness of the candidate moves to the next multiple. *)
Lemma watches_move (c q : Z) :
  2 <= q -> watches c q c -> watches (c + 1) q (q + c).
Proof.
  unfold watches. intros Hq ([a Ha] & Hk). split; [| lia].
  exists (a + 1). lia.
Qed.

Lemma watches_square (c : Z) : 2 <= c -> watches (c + 1) c (c * c).
Proof.
  unfold watches. intros Hc. split; [exists c; reflexivity | nia].
Qed.

(** ** The sieve *)

(** What the [for] loop leaves at key [k]: the old list, followed by the
    witnesses [p] with [p + c = k]. *)
Lemma foldl_mark_lookup (c : Z) (l : list Z) (D : gmap Z (list Z)) (k : Z) :
  foldl (mark c) D l !! k =
  match filter (fun p => p + c = k) l with
  | [] => D !! k
  | add => Some (default [] (D !! k) ++ add)
  end.
Proof.
  revert D. induction l as [| p l IH]; intros D; [reflexivity |].
  cbn [foldl]. rewrite IH. unfold mark.
  destruct (decide (p + c = k)) as [E | E].
  - rewrite filter_cons_True by assumption. subst k.
    rewrite lookup_insert_eq.
    destruct (filter _ l); [reflexivity |].
    change (default [] (Some ?x)) with x.
    rewrite <- app_assoc. reflexivity.
  - rewrite filter_cons_False by assumption.
    rewrite lookup_insert_ne by assumption. reflexivity.
Qed.

(** A candidate with an entry has a proper divisor. *)
Lemma inv_entry_witness (s : sieve) (l : list Z) :
  sieve_inv s -> divisors s !! candidate s = Some l ->
  exists q, q ∈ l /\ Z.prime q /\ q < candidate s /\ (q | candidate s) /\
    q * q <= candidate s.
Proof.
  intros Hinv Hl.
  destruct (inv_keys s Hinv _ _ Hl) as (Hne & _ & Hq).
  destruct l as [| q l]; [congruence |].
  destruct (Hq q ltac:(left)) as (Hp & Hlt & Hdiv & Hk).
  exists q. split; [left |]. split; [assumption |]. split; [assumption |].
  split; [assumption | lia].
Qed.

Lemma inv_entry_not_prime (s : sieve) (l : list Z) :
  sieve_inv s -> divisors s !! candidate s = Some l ->
  ~ Z.prime (candidate s).
Proof.
  intros Hinv Hl [_ Hpr].
  destruct (inv_entry_witness s l Hinv Hl) as (q & _ & Hp & Hlt & Hdiv & _).
  apply (Hpr q); [| assumption]. pose proof (Z.prime_ge_2 q Hp). lia.
Qed.

(** A candidate without an entry is prime: its least prime factor would
    be watching it. *)
Lemma inv_no_entry_prime (s : sieve) :
  sieve_inv s -> divisors s !! candidate s = None -> Z.prime (candidate s).
Proof.
  intros Hinv Hnone. pose proof (inv_candidate s Hinv) as Hc.
  destruct (prime_dec (candidate s)) as [? | Hnp]; [assumption |].
  exfalso.
  destruct (small_prime_factor _ Hc Hnp) as (q & Hp & Hdiv & Hsq).
  pose proof (Z.prime_ge_2 q Hp) as Hq2.
  destruct (inv_primes s Hinv q Hp ltac:(nia)) as (k & l & Hl & Hin).
  destruct (inv_keys s Hinv _ _ Hl) as (_ & _ & Hq).
  destruct (Hq q Hin) as (_ & _ & Hw).
  assert (Hwc : watches (candidate s) q (candidate s)).
  { split; [assumption | lia]. }
  assert (Hq0 : 0 < q) by lia.
  rewrite (watches_unique _ _ _ _ Hq0 Hw Hwc) in Hl. congruence.
Qed.

(** The prime branch of [step] keeps the invariant. *)
Lemma step_prime_inv (s : sieve) :
  sieve_inv s -> divisors s !! candidate s = None ->
  sieve_inv (Sieve (<[candidate s * candidate s := [candidate s]]> (divisors s))
                   (candidate s + 1)).
Proof.
  intros Hinv Hnone. pose proof (inv_candidate s Hinv) as Hc.
  pose proof (inv_no_entry_prime s Hinv Hnone) as Hpc.
  set (c := candidate s) in *. set (D := divisors s) in *.
  (* no smaller prime watches the square of a prime *)
  assert (Hfresh : D !! (c * c) = None).
  { destruct (D !! (c * c)) as [l |] eqn:Hl; [| reflexivity]. exfalso.
    destruct (inv_keys s Hinv _ _ Hl) as (Hne & _ & Hq).
    destruct l as [| q l]; [congruence |].
    destruct (Hq q ltac:(left)) as (Hp & Hlt & Hdiv & _).
    pose proof (Z.prime_ge_2 q Hp) as Hq2.
    apply (Z.divide_prime_mul c c q Hp) in Hdiv.
    assert (Hqc : (q | c)) by tauto.
    destruct Hpc as [_ Hpc]. apply (Hpc q); [fold c in Hlt; lia | assumption]. }
  split; cbn [candidate divisors].
  - lia.
  - intros k l Hl. destruct (decide (c * c = k)) as [<- | Hne].
    + rewrite lookup_insert_eq in Hl. inversion Hl; subst l.
      split; [discriminate |]. split; [apply NoDup_singleton |].
      intros q Hq. apply list_elem_of_singleton in Hq as ->.
      split; [assumption |]. split; [lia | apply watches_square; assumption].
    + rewrite lookup_insert_ne in Hl by assumption.
      destruct (inv_keys s Hinv _ _ Hl) as (Hnil & Hnd & Hq).
      split; [assumption |]. split; [assumption |].
      intros q Hin. destruct (Hq q Hin) as (Hp & Hlt & Hw).
      split; [assumption |]. split; [fold c in Hlt; lia |].
      apply watches_keep; [assumption |]. intros ->. fold D in Hl. congruence.
  - intros q Hp Hlt. destruct (Z.eq_dec q c) as [-> | Hne].
    + exists (c * c), [c]. rewrite lookup_insert_eq. split; [reflexivity | left].
    + destruct (inv_primes s Hinv q Hp ltac:(fold c; lia)) as (k & l & Hl & Hin).
      exists k, l. split; [| assumption].
      rewrite lookup_insert_ne; [assumption |].
      intros <-. fold D in Hl. congruence.
Qed.

(** The composite branch of [step] keeps the invariant. *)
Lemma step_composite_inv (s : sieve) (l : list Z) :
  sieve_inv s -> divisors s !! candidate s = Some l ->
  sieve_inv (Sieve (delete (candidate s)
                      (foldl (mark (candidate s)) (divisors s) l))
                   (candidate s + 1)).
Proof.
  intros Hinv Hl. pose proof (inv_candidate s Hinv) as Hc.
  pose proof (inv_entry_not_prime s l Hinv Hl) as Hnp.
  destruct (inv_keys s Hinv _ _ Hl) as (Hlne & Hlnd & Hlq).
  set (c := candidate s) in *. set (D := divisors s) in *.
  assert (Hold : forall k l0 q, D !! k = Some l0 -> q ∈ l0 -> k <> c ->
            Z.prime q /\ q < c + 1 /\ watches (c + 1) q k).
  { intros k l0 q Hk Hin Hne.
    destruct (inv_keys s Hinv _ _ Hk) as (_ & _ & Hq).
    destruct (Hq q Hin) as (Hp & Hlt & Hw). fold c in Hlt, Hw.
    split; [assumption |]. split; [lia | apply watches_keep; assumption]. }
  assert (Hnew : forall q, q ∈ l ->
            Z.prime q /\ q < c + 1 /\ watches (c + 1) q (q + c)).
  { intros q Hin. destruct (Hlq q Hin) as (Hp & Hlt & Hw).
    pose proof (Z.prime_ge_2 q Hp).
    split; [assumption |]. split; [lia | apply watches_move; assumption]. }
  split; cbn [candidate divisors].
  - lia.
  - intros k l' Hl'. destruct (decide (c = k)) as [<- | Hne].
    { rewrite lookup_delete_eq in Hl'. discriminate. }
    rewrite lookup_delete_ne, foldl_mark_lookup in Hl' by assumption.
    destruct (filter (fun p => p + c = k) l) as [| x add] eqn:Hf.
    + destruct (inv_keys s Hinv _ _ Hl') as (Hnil & Hnd & _).
      split; [assumption |]. split; [assumption |].
      intros q Hin. apply (Hold k l'); (assumption || congruence).
    + inversion Hl'; subst l'. clear Hl'. rewrite <- Hf.
      split; [| split].
      * rewrite Hf. intros Heq. apply app_eq_nil in Heq as [_ Heq].
        discriminate.
      * apply NoDup_app. split; [| split].
        -- destruct (D !! k) as [l0 |] eqn:Hk; [| apply NoDup_nil_2].
           destruct (inv_keys s Hinv _ _ Hk) as (_ & Hnd & _). exact Hnd.
        -- intros q Hin1 Hin2.
           apply list_elem_of_filter in Hin2 as [_ Hin2].
           destruct (D !! k) as [l0 |] eqn:Hk; [| inversion Hin1].
           cbn in Hin1.
           destruct (inv_keys s Hinv _ _ Hk) as (_ & _ & Hq).
           destruct (Hq q Hin1) as (Hp & _ & Hw1).
           destruct (Hlq q Hin2) as (_ & _ & Hw2).
           pose proof (Z.prime_ge_2 q Hp).
           assert (Hq0 : 0 < q) by lia.
           apply Hne. symmetry.
           exact (watches_unique _ _ _ _ Hq0 Hw1 Hw2).
        -- apply NoDup_filter. assumption.
      * intros q Hin. apply elem_of_app in Hin as [Hin | Hin].
        -- destruct (D !! k) as [l0 |] eqn:Hk; [| inversion Hin].
           cbn in Hin. apply (Hold k l0); (assumption || congruence).
        -- apply list_elem_of_filter in Hin as [<- Hin]. apply Hnew. assumption.
  - intros q Hp Hlt.
    assert (Hqc : q < c).
    { destruct (Z.eq_dec q c) as [-> | ?]; [contradiction | lia]. }
    pose proof (Z.prime_ge_2 q Hp) as Hq2.
    destruct (inv_primes s Hinv q Hp Hqc) as (k & l0 & Hk & Hin).
    destruct (decide (k = c)) as [-> | Hne].
    + assert (l0 = l) by (fold D in Hk; congruence). subst l0.
      assert (Hf : q ∈ filter (fun p => p + c = q + c) l).
      { apply list_elem_of_filter. split; [reflexivity | assumption]. }
      exists (q + c). rewrite lookup_delete_ne, foldl_mark_lookup by lia.
      destruct (filter (fun p => p + c = q + c) l) as [| x add];
        [inversion Hf |].
      eexists. split; [reflexivity |]. apply elem_of_app. right. assumption.
    + exists k. rewrite lookup_delete_ne, foldl_mark_lookup by congruence.
      fold D in Hk. rewrite Hk.
      destruct (filter (fun p => p + c = k) l) as [| x add].
      * exists l0. split; [reflexivity | assumption].
      * eexists. split; [reflexivity |]. apply elem_of_app. left. assumption.
Qed.

(** ** The run of the generator *)

Lemma generate_primes_inv : sieve_inv generate_primes.
Proof.
  split; cbn [generate_primes candidate divisors].
  - lia.
  - intros k l H. rewrite lookup_empty in H. discriminate.
  - intros q Hp Hlt. pose proof (Z.prime_ge_2 q Hp). lia.
Qed.

Lemma step_candidate (s : sieve) : candidate (snd (step s)) = candidate s + 1.
Proof. unfold step. destruct (divisors s !! candidate s); reflexivity. Qed.

Lemma step_inv (s : sieve) : sieve_inv s -> sieve_inv (snd (step s)).
Proof.
  intros Hinv. unfold step.
  destruct (divisors s !! candidate s) as [l |] eqn:Hl; cbn [snd].
  - apply step_composite_inv; assumption.
  - apply step_prime_inv; assumption.
Qed.

(** An iteration yields its candidate exactly when the candidate is
    prime. *)
Lemma step_yield (s : sieve) :
  sieve_inv s ->
  (Z.prime (candidate s) /\ fst (step s) = Some (candidate s)) \/
  (~ Z.prime (candidate s) /\ fst (step s) = None).
Proof.
  intros Hinv. unfold step.
  destruct (divisors s !! candidate s) as [l |] eqn:Hl; cbn [fst].
  - right. split; [| reflexivity]. eapply inv_entry_not_prime; eassumption.
  - left. split; [| reflexivity]. apply inv_no_entry_prime; assumption.
Qed.

Lemma trace_S (n : nat) :
  trace (S n) =
  (yielded n ++ option_list (fst (step (state_at n))),
   snd (step (state_at n))).
Proof.
  unfold yielded, state_at. cbn [trace].
  destruct (trace n) as [out s]. cbn [fst snd].
  destruct (step s) as [o s']. reflexivity.
Qed.

Lemma state_at_S (n : nat) : state_at (S n) = snd (step (state_at n)).
Proof. unfold state_at at 1. rewrite trace_S. reflexivity. Qed.

Lemma yielded_S (n : nat) :
  yielded (S n) = yielded n ++ option_list (fst (step (state_at n))).
Proof. unfold yielded at 1. rewrite trace_S. reflexivity. Qed.

Lemma state_at_inv (n : nat) : sieve_inv (state_at n).
Proof.
  induction n as [| n IH]; [exact generate_primes_inv |].
  rewrite state_at_S. apply step_inv. assumption.
Qed.

Lemma state_at_candidate (n : nat) : candidate (state_at n) = 2 + Z.of_nat n.
Proof.
  induction n as [| n IH]; [reflexivity |].
  rewrite state_at_S, step_candidate, IH. lia.
Qed.

(** The values yielded so far are the primes below the candidate, in
    increasing order. *)
Lemma yielded_spec (n : nat) :
  StronglySorted Z.lt (yielded n) /\
  forall x, x ∈ yielded n <-> Z.prime x /\ x < 2 + Z.of_nat n.
Proof.
  induction n as [| n [IHs IHm]].
  - split; [constructor |]. intros x. split.
    + intros H. inversion H.
    + intros [Hp Hlt]. pose proof (Z.prime_ge_2 x Hp). lia.
  - rewrite yielded_S.
    pose proof (state_at_candidate n) as Hc.
    destruct (step_yield _ (state_at_inv n)) as [[Hp Hy] | [Hnp Hy]];
      rewrite Hy, Hc in *;
      [change (option_list (Some (2 + Z.of_nat n))) with [2 + Z.of_nat n]
      | change (option_list (@None Z)) with (@nil Z)].
    + split.
      * apply StronglySorted_app_2; [| assumption | repeat constructor].
        intros x1 x2 H1 H2. apply list_elem_of_singleton in H2 as ->.
        apply IHm in H1. lia.
      * intros x. rewrite elem_of_app, list_elem_of_singleton, IHm.
        split.
        -- intros [[Hx Hlt] | ->]; (split; [assumption | lia]).
        -- intros [Hx Hlt].
           destruct (Z.eq_dec x (2 + Z.of_nat n)) as [-> | ?];
             [right; reflexivity | left; split; [assumption | lia]].
    + rewrite app_nil_r. split; [assumption |].
      intros x. rewrite IHm. split.
      * intros [Hx Hlt]. split; [assumption | lia].
      * intros [Hx Hlt]. split; [assumption |].
        destruct (Z.eq_dec x (2 + Z.of_nat n)) as [-> | ?];
          [contradiction | lia].
Qed.

Lemma StronglySorted_lt_NoDup (l : list Z) : StronglySorted Z.lt l -> NoDup l.
Proof.
  induction 1 as [| x l Hs IH Hall]; constructor; [| assumption].
  intros Hin. rewrite Forall_forall in Hall. specialize (Hall x Hin). lia.
Qed.

(** Each key holds a witness of its own, so there are at most as many
    keys as primes below the candidate. *)
Lemma inv_size_le (s : sieve) (out : list Z) :
  sieve_inv s ->
  (forall q, Z.prime q -> q < candidate s -> q ∈ out) ->
  (size (divisors s) <= length out)%nat.
Proof.
  intros Hinv Hout.
  set (first := fun kl : Z * list Z => default 0 (head (snd kl))).
  rewrite <- length_map_to_list.
  rewrite <- (length_fmap first (map_to_list (divisors s))).
  apply submseteq_length, NoDup_submseteq.
  - apply NoDup_fmap_2_strong; [| apply NoDup_map_to_list].
    intros [k1 l1] [k2 l2] H1 H2 Heq.
    apply elem_of_map_to_list in H1, H2.
    destruct (inv_keys s Hinv _ _ H1) as (Hne1 & _ & Hq1).
    destruct (inv_keys s Hinv _ _ H2) as (Hne2 & _ & Hq2).
    destruct l1 as [| q1 l1]; [congruence |].
    destruct l2 as [| q2 l2]; [congruence |].
    unfold first in Heq. cbn in Heq. subst q2.
    destruct (Hq1 q1 ltac:(left)) as (Hp & _ & Hw1).
    destruct (Hq2 q1 ltac:(left)) as (_ & _ & Hw2).
    pose proof (Z.prime_ge_2 q1 Hp).
    assert (Hq0 : 0 < q1) by lia.
    pose proof (watches_unique _ _ _ _ Hq0 Hw1 Hw2) as ->.
    congruence.
  - intros q Hq. apply list_elem_of_fmap in Hq as ([k l] & -> & Hkl).
    apply elem_of_map_to_list in Hkl.
    destruct (inv_keys s Hinv _ _ Hkl) as (Hne & _ & Hql).
    destruct l as [| q l]; [congruence |].
    destruct (Hql q ltac:(left)) as (Hp & Hlt & _).
    unfold first. cbn. apply Hout; assumption.
Qed.

Lemma state_at_size (n : nat) :
  (size (divisors (state_at n)) <= length (yielded n))%nat.
Proof.
  apply inv_size_le; [apply state_at_inv |].
  intros q Hp Hlt. apply yielded_spec. rewrite state_at_candidate in Hlt.
  split; assumption.
Qed.

(** ** Pulling values *)

(** [next] skips the composite candidates and stops at the first prime. *)
Lemma next_skip (d : nat) :
  forall (n fuel : nat),
    (forall j : nat, (j < d)%nat -> ~ Z.prime (2 + Z.of_nat n + Z.of_nat j)) ->
    Z.prime (2 + Z.of_nat n + Z.of_nat d) ->
    (d < fuel)%nat ->
    next fuel (state_at n) =
    Some (2 + Z.of_nat n + Z.of_nat d, state_at (S (n + d))).
Proof.
  induction d as [| d IH]; intros n fuel Hskip Hp Hfuel;
    (destruct fuel as [| fuel]; [lia |]); cbn [next];
    pose proof (state_at_candidate n) as Hc;
    destruct (step_yield _ (state_at_inv n)) as [[Hpc Hy] | [Hnp Hy]];
    rewrite (surjective_pairing (step (state_at n))), Hy, <- state_at_S.
  - rewrite Hc, Nat.add_0_r, Z.add_0_r. reflexivity.
  - exfalso. apply Hnp. rewrite Hc.
    replace (2 + Z.of_nat n) with (2 + Z.of_nat n + Z.of_nat 0) by lia.
    assumption.
  - exfalso. apply (Hskip O); [lia |].
    rewrite Hc in Hpc.
    replace (2 + Z.of_nat n + Z.of_nat 0) with (2 + Z.of_nat n) by lia.
    assumption.
  - rewrite (IH (S n) fuel).
    + replace (S n + d)%nat with (n + S d)%nat by lia.
      replace (2 + Z.of_nat (S n) + Z.of_nat d)
        with (2 + Z.of_nat n + Z.of_nat (S d)) by lia.
      reflexivity.
    + intros j Hj.
      replace (2 + Z.of_nat (S n) + Z.of_nat j)
        with (2 + Z.of_nat n + Z.of_nat (S j)) by lia.
      apply Hskip. lia.
    + replace (2 + Z.of_nat (S n) + Z.of_nat d)
        with (2 + Z.of_nat n + Z.of_nat (S d)) by lia.
      assumption.
    + lia.
Qed.

(** Pulling [k] values from the state at iteration [n] gives the first
    [k] primes from the candidate on. *)
Lemma pull_spec (k : nat) :
  forall n : nat, exists (fuel : nat) (l : list Z),
    (forall f, (fuel <= f)%nat -> pull f k (state_at n) = Some l) /\
    length l = k /\
    StronglySorted Z.lt l /\
    (forall x, x ∈ l -> Z.prime x /\ 2 + Z.of_nat n <= x) /\
    (forall x y, Z.prime x -> 2 + Z.of_nat n <= x -> x <= y -> y ∈ l -> x ∈ l).
Proof.
  induction k as [| k IH]; intros n.
  - exists O, []. split; [reflexivity |]. split; [reflexivity |].
    split; [constructor |]. split; intros; match goal with
      | H : _ ∈ [] |- _ => inversion H end.
  - destruct (least_prime_from (2 + Z.of_nat n)) as (d & Hp & Hmin).
    destruct (IH (S (n + d))) as (fuel & l & Hpull & Hlen & Hs & Hall & Hdown).
    exists (Nat.max (S d) fuel), (2 + Z.of_nat n + Z.of_nat d :: l).
    split; [| split; [| split; [| split]]].
    + intros f Hf. cbn [pull].
      rewrite (next_skip d n f Hmin Hp ltac:(lia)).
      rewrite Hpull by lia. reflexivity.
    + cbn [length]. lia.
    + constructor; [assumption |]. apply Forall_forall. intros x Hx.
      apply Hall in Hx. lia.
    + intros x Hx. apply elem_of_cons in Hx as [-> | Hx].
      * split; [assumption | lia].
      * apply Hall in Hx. split; [tauto | lia].
    + intros x y Hx Hlo Hxy Hy.
      destruct (Z.eq_dec x (2 + Z.of_nat n + Z.of_nat d)) as [-> | Hne];
        [left |].
      right.
      assert (Hgt : 2 + Z.of_nat n + Z.of_nat d < x).
      { destruct (Z.lt_ge_cases (2 + Z.of_nat n + Z.of_nat d) x) as [? | Hle];
          [assumption |].
        exfalso. apply (Hmin (Z.to_nat (x - (2 + Z.of_nat n)))); [lia |].
        replace (2 + Z.of_nat n + Z.of_nat (Z.to_nat (x - (2 + Z.of_nat n))))
          with x by lia.
        assumption. }
      apply elem_of_cons in Hy as [-> | Hy]; [lia |].
      apply (Hdown x y); (assumption || lia).
Qed.

(** In an ascending list of primes that misses no prime below one of its
    elements, the element at position [j] has exactly the [j] elements
    before it as the primes below it. *)
Lemma first_primes_nth (l : list Z) (j : nat) (x : Z) :
  StronglySorted Z.lt l ->
  (forall y, y ∈ l -> Z.prime y) ->
  (forall y z, Z.prime y -> y <= z -> z ∈ l -> y ∈ l) ->
  l !! j = Some x ->
  Z.prime x /\ length (take j l) = j /\
  forall y, y ∈ take j l <-> Z.prime y /\ y < x.
Proof.
  intros Hs Hall Hdown Hj.
  assert (Hin : x ∈ l) by (eapply list_elem_of_lookup_2; eassumption).
  assert (Hsplit : l = take j l ++ x :: drop (S j) l).
  { symmetry. apply take_drop_middle. assumption. }
  split; [apply Hall; assumption |]. split.
  - apply length_take_le. apply lookup_lt_Some in Hj. lia.
  - rewrite Hsplit in Hs. intros y. split.
    + intros Hy. split.
      * apply Hall. rewrite Hsplit. apply elem_of_app. left. assumption.
      * eapply (StronglySorted_app_1_elem_of Z.lt); [exact Hs | exact Hy | left].
    + intros [Hp Hlt].
      assert (Hyl : y ∈ l) by (apply (Hdown y x); (assumption || lia)).
      rewrite Hsplit in Hyl.
      apply elem_of_app in Hyl as [? | Hyl]; [assumption |].
      exfalso. apply elem_of_cons in Hyl as [-> | Hyl]; [lia |].
      apply StronglySorted_app_1_r in Hs.
      apply StronglySorted_cons in Hs as [Hs _].
      rewrite Forall_forall in Hs. specialize (Hs y Hyl). lia.
Qed.

(** ** generate_primes *)

(** The generator at the top of the iteration on 30: the ten primes
    yielded, and 30 watched by 5, 3 and 2, in the order in which they
    arrived. *)
Example sieve_at_30 :
  yielded 28 = [2; 3; 5; 7; 11; 13; 17; 19; 23; 29] /\
  candidate (state_at 28) = 30 /\
  divisors (state_at 28) !! 30 = Some [5; 3; 2] /\
  dom (divisors (state_at 28)) = {[ 30; 49; 121; 169; 289; 361; 529; 841 ]}.
Proof. repeat split; vm_compute; reflexivity. Qed.

(** C4.  For every [k], pulling [k] values from a fresh generator
    returns, given enough fuel, the list of the first [k] primes: it is
    strictly increasing, and its element at position [j] is a prime with
    exactly the [j] elements before it as the primes below it.  The first
    ten values are 2, 3, 5, 7, 11, 13, 17, 19, 23, 29. *)
Theorem generate_primes_sequence :
  (forall k : nat, exists (fuel : nat) (l : list Z),
     (forall f, (fuel <= f)%nat -> pull f k generate_primes = Some l) /\
     length l = k /\
     StronglySorted Z.lt l /\
     forall (j : nat) (x : Z), l !! j = Some x ->
       Z.prime x /\ length (take j l) = j /\
       forall y, y ∈ take j l <-> Z.prime y /\ y < x) /\
  pull 10 10 generate_primes = Some [2; 3; 5; 7; 11; 13; 17; 19; 23; 29].
Proof.
  split; [| vm_compute; reflexivity].
  intros k. destruct (pull_spec k O) as (fuel & l & Hpull & Hlen & Hs & Hall & Hdown).
  exists fuel, l. split; [exact Hpull |]. split; [exact Hlen |].
  split; [exact Hs |]. intros j x Hj.
  apply first_primes_nth; try assumption.
  - intros y Hy. apply Hall in Hy. tauto.
  - intros y z Hy Hyz Hz. apply (Hdown y z); try assumption.
    pose proof (Z.prime_ge_2 y Hy). cbn. lia.
Qed.

(** C7.  At the top of every iteration the dictionary has an entry for
    the candidate iff the candidate is composite; after the iteration the
    candidate has no entry, and each of its witnesses [p] is stored at
    [p + candidate]. *)
Theorem candidate_entry_iff_composite (n : nat) :
  let s := state_at n in
  let s' := state_at (S n) in
  (is_Some (divisors s !! candidate s) <-> composite (candidate s)) /\
  divisors s' !! candidate s = None /\
  forall l p, divisors s !! candidate s = Some l -> p ∈ l ->
    exists l', divisors s' !! (p + candidate s) = Some l' /\ p ∈ l'.
Proof.
  cbn zeta. pose proof (state_at_inv n) as Hinv.
  pose proof (inv_candidate _ Hinv) as Hc.
  rewrite state_at_S. set (s := state_at n) in *.
  split; [| split].
  - rewrite (composite_not_prime _ Hc). split.
    + intros [l Hl]. eapply inv_entry_not_prime; eassumption.
    + intros Hnp. destruct (divisors s !! candidate s) eqn:Hl; [eauto |].
      exfalso. apply Hnp. apply inv_no_entry_prime; assumption.
  - unfold step. destruct (divisors s !! candidate s) as [l |] eqn:Hl;
      cbn [snd divisors].
    + apply lookup_delete_eq.
    + rewrite lookup_insert_ne by nia. assumption.
  - intros l p Hl Hp. unfold step. rewrite Hl. cbn [snd divisors].
    destruct (inv_keys _ Hinv _ _ Hl) as (_ & _ & Hq).
    destruct (Hq p Hp) as (Hpp & _ & _).
    pose proof (Z.prime_ge_2 p Hpp).
    rewrite lookup_delete_ne, foldl_mark_lookup by lia.
    assert (Hf : p ∈ filter (fun q => q + candidate s = p + candidate s) l).
    { apply list_elem_of_filter. split; [reflexivity | assumption]. }
    destruct (filter (fun q => q + candidate s = p + candidate s) l)
      as [| x add]; [inversion Hf |].
    eexists. split; [reflexivity |]. apply elem_of_app. right. assumption.
Qed.

(** C8 (counterexample).  At the top of the second iteration the
    candidate is 3 and the dictionary holds the key 4, while no prime
    yielded so far has its square up to 3. *)
Lemma keys_exceed_primes_with_small_square :
  candidate (state_at 1) = 3 /\
  dom (divisors (state_at 1)) = {[ 4 ]} /\
  filter (fun p => p * p <= candidate (state_at 1)) (yielded 1) = [] /\
  ~ (size (divisors (state_at 1)) <=
     length (filter (fun p => (p * p <= candidate (state_at 1))%Z)
               (yielded 1)))%nat.
Proof.
  split; [reflexivity |]. split; [vm_compute; reflexivity |].
  split; [vm_compute; reflexivity |]. vm_compute. lia.
Qed.

(** C8 (amended).  At every step the number of keys of the dictionary is
    bounded by the number of primes yielded so far, which are the primes
    below the candidate. *)
Theorem keys_bounded_by_primes_yielded (n : nat) :
  (size (divisors (state_at n)) <= length (yielded n))%nat /\
  forall x, x ∈ yielded n <-> Z.prime x /\ x < candidate (state_at n).
Proof.
  split; [apply state_at_size |].
  rewrite state_at_candidate. apply yielded_spec.
Qed.

(** C10.  At the top of every iteration each prime yielded so far occurs
    in exactly one list of the dictionary, once, at a key that is a
    multiple of it and not below the candidate; so no key is below the
    candidate and there are at most as many keys as primes yielded. *)
Theorem witnesses_partition_primes (n : nat) :
  let s := state_at n in
  (forall p, p ∈ yielded n ->
     exists k l, divisors s !! k = Some l /\ p ∈ l /\ NoDup l /\
       (p | k) /\ candidate s <= k /\
       forall k' l', divisors s !! k' = Some l' -> p ∈ l' -> k' = k) /\
  (forall k, is_Some (divisors s !! k) -> candidate s <= k) /\
  (size (divisors s) <= length (yielded n))%nat.
Proof.
  cbn zeta. pose proof (state_at_inv n) as Hinv.
  split; [| split].
  - intros p Hp. apply yielded_spec in Hp as [Hpp Hlt].
    rewrite <- state_at_candidate in Hlt.
    destruct (inv_primes _ Hinv p Hpp Hlt) as (k & l & Hl & Hin).
    destruct (inv_keys _ Hinv _ _ Hl) as (_ & Hnd & Hq).
    destruct (Hq p Hin) as (_ & _ & Hw).
    exists k, l. split; [assumption |]. split; [assumption |].
    split; [assumption |]. pose proof Hw as [Hdiv Hk].
    split; [assumption |]. split; [lia |].
    intros k' l' Hl' Hin'.
    destruct (inv_keys _ Hinv _ _ Hl') as (_ & _ & Hq').
    destruct (Hq' p Hin') as (_ & _ & Hw').
    pose proof (Z.prime_ge_2 p Hpp). assert (Hp0 : 0 < p) by lia.
    exact (watches_unique _ _ _ _ Hp0 Hw' Hw).
  - intros k [l Hl].
    destruct (inv_keys _ Hinv _ _ Hl) as (Hne & _ & Hq).
    destruct l as [| q l]; [congruence |].
    destruct (Hq q ltac:(left)) as (_ & _ & _ & Hk). lia.
  - apply state_at_size.
Qed.

(** * Further properties of [factorize] and [is_prime] *)

(** ** Overflow *)

Section overflow.
Import Binary64.

(** Rounding does not cross a power of two from above either. *)
Lemma round_frac_ge_pow2 (a b K : Z) :
  1 <= b <= a -> 0 <= K -> b * 2 ^ K <= a -> 2 ^ K <= trunc (round_frac a b).
Proof.
  intros Hab HK0 HK.
  destruct (ilog2_frac_spec a b Hab) as (HL0 & HLlo & HLhi).
  destruct (round_frac_nearest a b Hab) as (Hm & _).
  destruct (round_frac_mant a b) as (He & _).
  cbn zeta in *. unfold trunc. rewrite He.
  set (L := ilog2_frac a b) in *. set (m := mant (round_frac a b)) in *.
  assert (HKL : K <= L).
  { assert (K < L + 1); [| lia].
    apply (Z.pow_lt_mono_r_iff 2); [lia | lia |].
    assert (0 < 2 ^ K) by (apply pow2_pos; assumption). nia. }
  assert (Hmono : 2 ^ K <= 2 ^ L) by (apply Z.pow_le_mono_r; lia).
  destruct (Z.le_gt_cases 0 (L - 52)) as [Hpos | Hneg].
  - rewrite Z.shiftl_mul_pow2 by lia.
    assert (HP := pow2_pos (L - 52) Hpos).
    assert (HLP : 2 ^ L = 2 ^ (L - 52) * 2 ^ 52).
    { rewrite <- Z.pow_add_r by lia. f_equal. lia. }
    nia.
  - rewrite Z.shiftl_div_pow2 by lia.
    assert (HP := pow2_pos (- (L - 52)) ltac:(lia)).
    assert (HLP : 2 ^ 52 = 2 ^ L * 2 ^ (- (L - 52))).
    { rewrite <- Z.pow_add_r by lia. f_equal. lia. }
    apply Z.le_trans with (2 ^ L); [assumption |].
    apply Z.div_le_lower_bound; [lia | nia].
Qed.

(** The integers that round to [2 ^ 1024] or beyond. *)
Lemma round_frac_overflow (n : Z) :
  1 <= n -> (2 ^ 1024 <= trunc (round_frac n 1) <-> 2 ^ 1024 - 2 ^ 970 <= n).
Proof.
  intros Hn.
  assert (H970 : 0 < 2 ^ 970) by (apply pow2_pos; lia).
  assert (H971 : 2 ^ 971 = 2 * 2 ^ 970).
  { change 971 with (1 + 970). rewrite Z.pow_add_r by lia. reflexivity. }
  assert (H1024 : 2 ^ 1024 = 2 ^ 53 * 2 ^ 971).
  { rewrite <- Z.pow_add_r by lia. reflexivity. }
  assert (H1023 : 2 ^ 1024 = 2 * 2 ^ 1023).
  { change 1024 with (1 + 1023). rewrite Z.pow_add_r by lia. reflexivity. }
  assert (H53 : 2 ^ 53 = 2 * 2 ^ 52).
  { change 53 with (1 + 52). rewrite Z.pow_add_r by lia. reflexivity. }
  assert (H52 : 0 < 2 ^ 52) by (apply pow2_pos; lia).
  destruct (Z.le_gt_cases n (2 ^ 1023)) as [Hsmall | Hbig].
  { (* at most [2 ^ 1023]: no overflow *)
    pose proof (round_frac_le_pow2 n 1 1023 ltac:(lia) ltac:(lia)) as Hle.
    split; intros H; exfalso; nia. }
  destruct (Z.le_gt_cases (2 ^ 1024) n) as [Hhuge | Hmid].
  { (* at least [2 ^ 1024]: overflow *)
    pose proof (round_frac_ge_pow2 n 1 1024 ltac:(lia) ltac:(lia) ltac:(lia)).
    split; intros; lia. }
  (* the last binade: the mantissa decides *)
  destruct (ilog2_frac_spec n 1 ltac:(lia)) as (HL0 & HLlo & HLhi).
  assert (HL : ilog2_frac n 1 = 1023).
  { assert (ilog2_frac n 1 < 1024).
    { apply (Z.pow_lt_mono_r_iff 2); lia. }
    assert (1023 < ilog2_frac n 1 + 1); [| lia].
    apply (Z.pow_lt_mono_r_iff 2); lia. }
  destruct (round_frac_nearest n 1 ltac:(lia)) as (Hm & Hnear & Htie).
  destruct (round_frac_mant n 1) as (He & _).
  cbn zeta in *. unfold trunc. rewrite He. rewrite HL in *.
  change (1023 - 52) with 971 in *.
  change (Z.max 0 (- 971)) with 0 in *. change (Z.max 0 971) with 971 in *.
  rewrite Z.pow_0_r, Z.mul_1_r, Z.mul_1_l in *.
  rewrite Z.shiftl_mul_pow2 by lia.
  set (m := mant (round_frac n 1)) in *.
  set (D := 2 ^ 971) in *. set (B := 2 ^ 53) in *. set (H := 2 ^ 970) in *.
  rewrite H1024 in *.
  destruct (Z.eq_dec m B) as [E | E].
  - split; [| nia]. intros _.
    rewrite E in Hnear.
    destruct (Z.le_gt_cases (B * D - H) n) as [? | Hlt]; [assumption |].
    exfalso. lia.
  - split; [nia |]. intros Hge. exfalso.
    assert (Hm1 : m <= B - 1) by lia.
    assert (Hd : 2 * Z.abs (m * D - n) = D) by nia.
    specialize (Htie Hd).
    assert (Em : m = B - 1) by nia.
    rewrite Em in Htie. unfold B in Htie. vm_compute in Htie. discriminate.
Qed.

End overflow.

Lemma scan_stop_overflow (n : Z) :
  1 <= n ->
  (scan_stop n = Raise OverflowError <-> 2 ^ 1024 - 2 ^ 970 <= n) /\
  (n < 2 ^ 1024 - 2 ^ 970 -> exists stop, scan_stop n = Ok stop).
Proof.
  intros Hn. pose proof (round_frac_overflow n Hn) as Hov.
  unfold scan_stop, pow_half, float_of_int, Binary64.overflows.
  destruct (Z.leb_spec (2 ^ 1024) (Binary64.trunc (Binary64.round_frac n 1)))
    as [Hge | Hlt]; cbn [bind].
  - split; [split; [intros _; apply Hov; assumption | reflexivity] |].
    intros Hsmall. apply Hov in Hge. lia.
  - split; [| eauto]. split; [discriminate |].
    intros Hbig. apply Hov in Hbig. lia.
Qed.

(** Below [2 ^ 1024] a quotient never overflows. *)
Lemma int_truediv_Ok (n i : Z) :
  2 <= i <= n -> n < 2 ^ 1024 ->
  exists q, int_truediv n i = Ok q /\ Binary64.trunc q <= 2 ^ 1023.
Proof.
  intros Hi Hn.
  assert (H1024 : 2 ^ 1024 = 2 * 2 ^ 1023).
  { change 1024 with (1 + 1023). rewrite Z.pow_add_r by lia. reflexivity. }
  assert (Hle : Binary64.trunc (Binary64.round_frac n i) <= 2 ^ 1023).
  { apply round_frac_le_pow2; [lia |].
    assert (0 < 2 ^ 1023) by (apply pow2_pos; lia). nia. }
  unfold int_truediv, Binary64.overflows.
  destruct (Z.leb_spec (2 ^ 1024) (Binary64.trunc (Binary64.round_frac n i)));
    [lia |].
  eexists. split; [reflexivity | assumption].
Qed.

Lemma factorize_returns_below (n : Z) :
  1 <= n < 2 ^ 1024 - 2 ^ 970 ->
  exists l, factorize (PyInt n) = Some (Ok l).
Proof.
  intros [Hn1 Hlt]. assert (Hn0 : 0 < n) by lia.
  revert Hn1 Hlt. pattern n. revert n Hn0. apply positive_call_ind.
  intros n Hn IH Hn1 Hlt.
  assert (H970 : 0 < 2 ^ 970) by (apply pow2_pos; lia).
  assert (Hthr : 2 ^ 1023 < 2 ^ 1024 - 2 ^ 970).
  { assert (2 ^ 1024 = 2 * 2 ^ 1023).
    { change 1024 with (1 + 1023). rewrite Z.pow_add_r by lia. reflexivity. }
    assert (2 ^ 970 < 2 ^ 1023) by (apply Z.pow_lt_mono_r; lia). lia. }
  destruct (scan_stop_overflow n Hn1) as [_ Hstop].
  destruct (Hstop Hlt) as [stop Hs].
  rewrite factorize_pos, Hs by assumption.
  destruct (trial n 2 (range_len stop)) as [i |] eqn:Ht; [| eauto].
  destruct (Z.eqb_spec i n); [eauto |].
  apply trial_hit_bounds in Ht as (Hi & _); [| assumption].
  destruct (int_truediv_Ok n i ltac:(lia) ltac:(lia)) as (q & Hq & Hqle).
  rewrite Hq.
  pose proof (int_truediv_trunc n i q ltac:(lia) Hq) as Hqb.
  destruct (IH (Binary64.trunc q) ltac:(lia) ltac:(lia) ltac:(lia)) as [l Hl].
  rewrite Hl. cbn. eauto.
Qed.

(** X5 (overflow).  [factorize] and [is_prime] raise [OverflowError]
    exactly for the integers of magnitude [2 ** 1024 - 2 ** 970] or more,
    those that [float] cannot hold. *)
Theorem factorize_overflow_threshold (n : Z) :
  (factorize (PyInt n) = Some (Raise OverflowError) <->
   2 ^ 1024 - 2 ^ 970 <= Z.abs n) /\
  (is_prime (PyInt n) = Some (Raise OverflowError) <->
   2 ^ 1024 - 2 ^ 970 <= Z.abs n).
Proof.
  assert (H970 : 0 < 2 ^ 970) by (apply pow2_pos; lia).
  assert (Hthr : 2 ^ 970 < 2 ^ 1024) by (apply Z.pow_lt_mono_r; lia).
  assert (Hpos : forall m, 1 <= m ->
            (factorize (PyInt m) = Some (Raise OverflowError) <->
             2 ^ 1024 - 2 ^ 970 <= m)).
  { intros m Hm. split.
    - intros Hraise.
      destruct (Z.le_gt_cases (2 ^ 1024 - 2 ^ 970) m) as [? | Hlt];
        [assumption |].
      destruct (factorize_returns_below m ltac:(lia)) as [l Hl]. congruence.
    - intros Hbig. rewrite factorize_pos by lia.
      destruct (scan_stop_overflow m Hm) as [[_ Hs] _].
      rewrite (Hs Hbig). reflexivity. }
  assert (Hfact : factorize (PyInt n) = Some (Raise OverflowError) <->
                  2 ^ 1024 - 2 ^ 970 <= Z.abs n).
  { destruct (Z.lt_trichotomy n 0) as [Hn | [-> | Hn]].
    - rewrite factorize_neg by assumption.
      replace (Z.abs n) with (- n) by lia.
      rewrite <- (Hpos (- n)) by lia. split.
      + apply prepend_Raise.
      + intros ->. reflexivity.
    - rewrite factorize_zero. cbn [Z.abs]. split; [discriminate | lia].
    - replace (Z.abs n) with n by lia. apply Hpos. lia. }
  split; [exact Hfact |].
  rewrite is_prime_raise. exact Hfact.
Qed.

(** ** The factors returned, whatever the size of the input *)

(** A quotient by a proper divisor is at least 2, also after rounding. *)
Lemma int_truediv_ge_2 (n i : Z) (q : Binary64.float) :
  2 <= i < n -> n mod i = 0 -> int_truediv n i = Ok q ->
  2 <= Binary64.trunc q.
Proof.
  intros Hi Hmod Hq. unfold int_truediv in Hq.
  destruct (Binary64.overflows _); [discriminate |].
  inversion Hq; subst q. clear Hq.
  apply Z.mod_divide in Hmod; [| lia]. destruct Hmod as [k Hk].
  assert (Hab : 1 <= i <= n) by lia.
  assert (Hk1 : 2 <= k).
  { destruct (Z.le_gt_cases 2 k); [assumption | nia]. }
  assert (Hk2 : i * 2 ^ 1 <= n) by (rewrite Z.pow_1_r; nia).
  pose proof (round_frac_ge_pow2 n i 1 Hab ltac:(lia) Hk2) as H.
  rewrite Z.pow_1_r in H. exact H.
Qed.

Lemma factorize_factors (n : Z) (l : list Z) :
  2 <= n -> factorize (PyInt n) = Some (Ok l) ->
  Forall (fun x => 2 <= x <= n) l /\
  (1 <= length l)%nat /\ Z.of_nat (length l) <= Z.log2_up n.
Proof.
  intros Hn2. assert (Hn0 : 0 < n) by lia.
  revert l Hn2. pattern n. revert n Hn0. apply positive_call_ind.
  intros n Hn IH l Hn2 Hl.
  assert (Hlog : 0 < Z.log2_up n) by (apply Z.log2_up_pos; lia).
  destruct (factorize_shape n Hn) as
    [Hs | stop Hs Ht | stop Hs Ht | stop i Hs Ht Hne Hq
    | stop i q Hs Ht Hne Hq Hqb]; try discriminate.
  - inversion Hl; subst l. split; [repeat constructor; lia |]. cbn. lia.
  - inversion Hl; subst l. split; [repeat constructor; lia |]. cbn. lia.
  - apply prepend_Ok in Hl as (l' & Hl' & ->).
    pose proof (trial_hit_bounds _ _ _ Hn Ht) as (Hi & _ & Hmod & _).
    pose proof (int_truediv_ge_2 n i q ltac:(lia) Hmod Hq) as Hq2.
    pose proof (int_truediv_log2_up n i q ltac:(lia) Hq) as Hqlog.
    destruct (IH (Binary64.trunc q) ltac:(lia) l' Hq2 Hl') as (Hall & Hlen1 & Hlen).
    split; [| cbn [length]; lia].
    constructor; [lia |].
    eapply Forall_impl; [exact Hall |]. cbn. intros x Hx. lia.
Qed.

(** X6 (range of the factors).  For [n >= 2] of any size every element of
    a list returned by [factorize] lies between 2 and [n]: neither 1 nor 0
    nor a negative number is ever listed as a factor. *)
Theorem factorize_factors_in_range (n : Z) (l : list Z) :
  2 <= n -> factorize (PyInt n) = Some (Ok l) ->
  Forall (fun x => 2 <= x <= n) l.
Proof. intros Hn Hl. apply (factorize_factors n l Hn Hl). Qed.

Lemma factorize_factors_in_range_witness :
  2 <= 12 /\ factorize (PyInt 12) = Some (Ok [2; 2; 3]) /\
  Forall (fun x => 2 <= x <= 12) [2; 2; 3].
Proof.
  split; [lia |]. split; [reflexivity |].
  apply (factorize_factors_in_range 12 [2; 2; 3]); [lia | reflexivity].
Defined.

(** X7 (number of factors).  For [n >= 2] of any size a list returned by
    [factorize] has at least one and at most [ceil(log2(n))] elements;
    each element costs one frame of the recursion. *)
Theorem factorize_length_bound (n : Z) (l : list Z) :
  2 <= n -> factorize (PyInt n) = Some (Ok l) ->
  (1 <= length l)%nat /\ Z.of_nat (length l) <= Z.log2_up n.
Proof. intros Hn Hl. apply (factorize_factors n l Hn Hl). Qed.

Lemma factorize_length_bound_witness :
  2 <= 8 /\ factorize (PyInt 8) = Some (Ok [2; 2; 2]) /\
  (1 <= length [2; 2; 2])%nat /\ Z.of_nat (length [2; 2; 2]) <= Z.log2_up 8.
Proof.
  split; [lia |]. split; [reflexivity |].
  apply (factorize_length_bound 8 [2; 2; 2]); [lia | reflexivity].
Defined.

(** X8 (first factor).  When [factorize] returns more than one element for
    [n >= 2], of any size, the first one is the least divisor of [n] above
    1, and it is prime. *)
Theorem factorize_first_factor (n x y : Z) (l : list Z) :
  2 <= n -> factorize (PyInt n) = Some (Ok (x :: y :: l)) ->
  Z.prime x /\ (x | n) /\ forall d, 2 <= d < x -> ~ (d | n).
Proof.
  intros Hn Hl. assert (Hn0 : 0 < n) by lia.
  destruct (factorize_shape n Hn0) as
    [Hs | stop Hs Ht | stop Hs Ht | stop i Hs Ht Hne Hq
    | stop i q Hs Ht Hne Hq Hqb]; try discriminate.
  apply prepend_Ok in Hl as (l' & _ & Heq). inversion Heq; subst.
  pose proof (trial_hit_bounds _ _ _ Hn0 Ht) as (Hi & _ & Hmod & Hmin).
  split; [apply least_divisor_prime with n; (lia || assumption) |].
  split; [apply Z.mod_divide; [lia | assumption] |].
  intros d Hd Hdiv. apply (Hmin d Hd). apply Z.mod_divide; [lia | assumption].
Qed.

Lemma factorize_first_factor_witness :
  2 <= 45 /\ factorize (PyInt 45) = Some (Ok [3; 3; 5]) /\
  Z.prime 3 /\ (3 | 45) /\ forall d, 2 <= d < 3 -> ~ (d | 45).
Proof.
  split; [lia |]. split; [reflexivity |].
  apply (factorize_first_factor 45 3 3 [5]); [lia | reflexivity].
Defined.

(** ** Below [2 ^ 53] *)

Lemma factorize_roundtrip_exact_witness :
  2 <= Z.abs (-12) < 2 ^ 53 /\
  exists l, factorize (PyInt (-12)) = Some (Ok l) /\ product l = -12 /\
    (-12 < 0 -> exists l', l = -1 :: l' /\
       factorize (PyInt (- -12)) = Some (Ok l') /\ product l' = - -12).
Proof.
  split; [cbn; lia |]. apply (factorize_roundtrip_exact (-12)). cbn. lia.
Defined.

Lemma factorize_primes_sorted_exact_witness :
  2 <= 360 < 2 ^ 53 /\
  exists l, factorize (PyInt 360) = Some (Ok l) /\
    Forall Z.prime l /\ Sorted Z.le l.
Proof.
  split; [lia |]. apply (factorize_primes_sorted_exact 360). lia.
Defined.

Lemma product_factors_pos (l : list Z) :
  Forall (fun x => 2 <= x) l -> 1 <= product l.
Proof.
  induction 1 as [| x l Hx _ IH]; unfold product in *; cbn [fold_right];
    [lia | nia].
Qed.

Lemma is_prime_decides (n : Z) :
  - 2 ^ 53 < n < 2 ^ 53 -> n <> 0 -> n <> 1 ->
  exists b, is_prime (PyInt n) = Some (Ok b) /\ (b = true <-> Z.prime n).
Proof.
  intros Hn Hn0 Hn1. unfold is_prime.
  destruct (Z.lt_ge_cases n 0) as [Hneg | Hpos].
  - (* negative: at least two elements *)
    assert (Hl : exists l, factorize (PyInt (- n)) = Some (Ok l) /\ l <> []).
    { destruct (Z.eq_dec n (-1)) as [-> | Hne].
      - exists [1]. split; [reflexivity | discriminate].
      - destruct (factorize_exact_pos (- n) ltac:(lia)) as (l & Hl & _).
        exists l. split; [assumption |]. intros ->.
        eapply factorize_pos_nonempty; [| eassumption]. lia. }
    destruct Hl as (l & Hl & Hne).
    rewrite factorize_neg, Hl by assumption. cbn [prepend].
    exists false. destruct l as [| x l]; [congruence |].
    split; [reflexivity |]. split; [discriminate |].
    intros [Hp _]. lia.
  - destruct (factorize_exact_pos n ltac:(lia)) as (l & Hl & Hprod & Hall & _).
    rewrite Hl. eexists. split; [reflexivity |].
    destruct l as [| x l].
    { unfold product in Hprod. cbn in Hprod. lia. }
    apply Forall_cons in Hall as [[Hx Hxn] Hall].
    assert (Hge : Forall (fun y => 2 <= y) l).
    { eapply Forall_impl; [exact Hall |]. cbn. intros y [Hy _].
      apply Z.prime_ge_2. assumption. }
    pose proof (product_factors_pos l Hge) as Hpl.
    pose proof (Z.prime_ge_2 x Hx) as Hx2.
    unfold product in Hprod, Hpl. cbn [fold_right] in Hprod.
    destruct l as [| y l]; cbn [length Nat.eqb].
    + cbn in Hprod. split; [intros _ | reflexivity].
      replace n with x by lia. assumption.
    + split; [discriminate |]. intros Hp. exfalso.
      apply (Z.divide_prime_r x n Hp) in Hxn.
      assert (x = n) by lia. subst x.
      apply Forall_cons in Hge as [Hy Hge].
      pose proof (product_factors_pos l Hge) as Hpl'.
      unfold product in Hpl'. cbn [fold_right] in Hprod.
      set (P := fold_right Z.mul 1 l) in *.
      assert (2 <= y * P) by nia. nia.
Qed.

(** X4 (primality below [2 ** 53]).  For every integer [n] with
    [|n| < 2 ** 53], other than 0 and 1, [is_prime(n)] returns a boolean,
    and it returns true exactly when [n] is a prime number. *)
Theorem is_prime_correct (n : Z) :
  - 2 ^ 53 < n < 2 ^ 53 -> n <> 0 -> n <> 1 ->
  exists b, is_prime (PyInt n) = Some (Ok b) /\ (b = true <-> Z.prime n).
Proof. apply is_prime_decides. Qed.

Lemma is_prime_correct_witness :
  (- 2 ^ 53 < 97 < 2 ^ 53 /\ 97 <> 0 /\ 97 <> 1) /\
  exists b, is_prime (PyInt 97) = Some (Ok b) /\ (b = true <-> Z.prime 97).
Proof.
  split; [lia |]. apply (is_prime_correct 97); lia.
Defined.

(** * Further properties of [generate_primes] *)

(** X9 (entry of a composite).  When the candidate has an entry, the list
    stored there holds, each once, exactly the primes that divide the
    candidate and whose square does not exceed it. *)
Theorem entry_lists_small_prime_factors (n : nat) (l : list Z) :
  divisors (state_at n) !! candidate (state_at n) = Some l ->
  NoDup l /\
  forall q, q ∈ l <->
    Z.prime q /\ (q | candidate (state_at n)) /\ q * q <= candidate (state_at n).
Proof.
  intros Hl. pose proof (state_at_inv n) as Hinv.
  set (s := state_at n) in *.
  destruct (inv_keys s Hinv _ _ Hl) as (_ & Hnd & Hq).
  split; [assumption |]. intros q. split.
  - intros Hin. destruct (Hq q Hin) as (Hp & _ & Hdiv & Hk).
    split; [assumption |]. split; [assumption | lia].
  - intros (Hp & Hdiv & Hsq). pose proof (Z.prime_ge_2 q Hp) as Hq2.
    destruct (inv_primes s Hinv q Hp ltac:(nia)) as (k & l0 & Hl0 & Hin).
    destruct (inv_keys s Hinv _ _ Hl0) as (_ & _ & Hq0).
    destruct (Hq0 q Hin) as (_ & _ & Hw).
    assert (Hwc : watches (candidate s) q (candidate s)).
    { split; [assumption | lia]. }
    assert (Hq0' : 0 < q) by lia.
    rewrite (watches_unique _ _ _ _ Hq0' Hw Hwc) in Hl0.
    congruence.
Qed.

Lemma entry_lists_small_prime_factors_witness :
  divisors (state_at 28) !! candidate (state_at 28) = Some [5; 3; 2] /\
  NoDup [5; 3; 2] /\
  forall q, q ∈ [5; 3; 2] <->
    Z.prime q /\ (q | candidate (state_at 28)) /\
    q * q <= candidate (state_at 28).
Proof.
  split; [vm_compute; reflexivity |].
  apply (entry_lists_small_prime_factors 28 [5; 3; 2]).
  vm_compute. reflexivity.
Defined.

(** X10 (keys).  Every key of the dictionary is a composite number, not
    below the candidate and below its square: a prime is never used as a
    key. *)
Theorem keys_composite_and_bounded (n : nat) (k : Z) :
  is_Some (divisors (state_at n) !! k) ->
  composite k /\
  candidate (state_at n) <= k < candidate (state_at n) * candidate (state_at n).
Proof.
  intros [l Hl]. pose proof (state_at_inv n) as Hinv.
  pose proof (inv_candidate _ Hinv) as Hc.
  set (s := state_at n) in *.
  destruct (inv_keys s Hinv _ _ Hl) as (Hne & _ & Hq).
  destruct l as [| q l]; [congruence |].
  destruct (Hq q ltac:(left)) as (Hp & Hlt & [a Ha] & Hk).
  pose proof (Z.prime_ge_2 q Hp) as Hq2.
  split.
  - exists a, q. split; [nia |]. split; [lia | assumption].
  - split; [lia |].
    destruct (Z.le_gt_cases (q * q) (candidate s)) as [Hsq | Hsq]; nia.
Qed.

Lemma keys_composite_and_bounded_witness :
  is_Some (divisors (state_at 28) !! 49) /\
  composite 49 /\
  candidate (state_at 28) <= 49 < candidate (state_at 28) * candidate (state_at 28).
Proof.
  assert (H : is_Some (divisors (state_at 28) !! 49)).
  { exists [7]. vm_compute. reflexivity. }
  split; [exact H |]. apply (keys_composite_and_bounded 28 49 H).
Defined.

(** * clip *)

Example clip_42_0_10 : clip 42 (Some 0) (Some 10) = 10.
Proof. reflexivity. Qed.

Section clip_facts.
Context {A : Type} `{Ordered A}.

Lemma clip_ordered_bounds (number lowest highest : A) :
  less highest lowest = false ->
  less (clip number (Some lowest) (Some highest)) lowest = false /\
  less highest (clip number (Some lowest) (Some highest)) = false /\
  (less number lowest = false -> less highest number = false ->
   clip number (Some lowest) (Some highest) = number).
Proof.
  intros Hlh. unfold clip, py_max, py_min.
  destruct (less number lowest) eqn:Hnl.
  - rewrite Hlh. split; [apply less_irrefl |]. split; [assumption |].
    discriminate.
  - destruct (less highest number) eqn:Hhn.
    + split; [assumption |]. split; [apply less_irrefl | discriminate].
    + split; [assumption |]. split; [assumption | reflexivity].
Qed.

Lemma clip_crossed_bounds (number lowest highest : A) :
  less highest lowest = true ->
  clip number (Some lowest) (Some highest) = highest.
Proof.
  intros Hhl. unfold clip, py_max, py_min.
  destruct (less number lowest) eqn:Hnl.
  - rewrite Hhl. reflexivity.
  - destruct (less_cotrans _ _ number Hhl) as [Hhn | Hnl'].
    + rewrite Hhn. reflexivity.
    + congruence.
Qed.

(** X12 (clip, bounds).  With [lowest] not above [highest], the result of
    [clip] is neither below [lowest] nor above [highest], and a [number]
    that already lies between them is returned itself. *)
Theorem clip_within_bounds (number lowest highest : A) :
  less highest lowest = false ->
  less (clip number (Some lowest) (Some highest)) lowest = false /\
  less highest (clip number (Some lowest) (Some highest)) = false /\
  (less number lowest = false -> less highest number = false ->
   clip number (Some lowest) (Some highest) = number).
Proof. apply clip_ordered_bounds. Qed.

(** X13 (clip, inverted bounds).  For values whose [<] is a strict weak
    order (integers, finite floats; not a float NaN, for which
    [clip(nan, 10, 0)] is [nan]): when [highest] is below [lowest], [clip]
    returns [highest], whatever the number. *)
Theorem clip_inverted_bounds (number lowest highest : A) :
  less highest lowest = true ->
  clip number (Some lowest) (Some highest) = highest.
Proof. apply clip_crossed_bounds. Qed.

(** X14 (clip, idempotence).  Clipping twice with the same bounds, given
    or not, and in either order of size, changes nothing more. *)
Theorem clip_idempotent (number : A) (lowest highest : option A) :
  clip (clip number lowest highest) lowest highest = clip number lowest highest.
Proof.
  destruct lowest as [lowest |], highest as [highest |].
  - destruct (less highest lowest) eqn:Hhl.
    + rewrite !clip_crossed_bounds by assumption. reflexivity.
    + destruct (clip_ordered_bounds number lowest highest Hhl)
        as (Hlo & Hhi & _).
      destruct (clip_ordered_bounds
                  (clip number (Some lowest) (Some highest)) lowest highest Hhl)
        as (_ & _ & Hid).
      apply Hid; assumption.
  - unfold clip, py_max. destruct (less number lowest) eqn:Hnl.
    + rewrite less_irrefl. reflexivity.
    + rewrite Hnl. reflexivity.
  - unfold clip, py_min. destruct (less highest number) eqn:Hhn.
    + rewrite less_irrefl. reflexivity.
    + rewrite Hhn. reflexivity.
  - reflexivity.
Qed.

End clip_facts.

Lemma clip_within_bounds_witness :
  less 10 0 = false /\
  less (clip 42 (Some 0) (Some 10)) 0 = false /\
  less 10 (clip 42 (Some 0) (Some 10)) = false /\
  (less 42 0 = false -> less 10 42 = false ->
   clip 42 (Some 0) (Some 10) = 42).
Proof.
  split; [reflexivity |]. apply (clip_within_bounds 42 0 10). reflexivity.
Defined.

Lemma clip_inverted_bounds_witness :
  less 0 10 = true /\ clip 5 (Some 10) (Some 0) = 0.
Proof.
  split; [reflexivity |]. apply (clip_inverted_bounds 5 10 0). reflexivity.
Defined.

(** * consistent_shuffle *)

Example consistent_shuffle_reversed :
  consistent_shuffle reverse [[1; 2; 3]; [10; 20; 30]; [7; 8; 9]]
  = Some [[3; 2; 1]; [30; 20; 10]; [9; 8; 7]].
Proof. reflexivity. Qed.

Section consistent_shuffle_facts.
Context {A : Type}.
Variable shuffle : list nat -> list nat.
Hypothesis shuffle_perm : forall l, shuffle l ≡ₚ l.

(** The elements picked at the indices of a rearranged [range(n)] are a
    rearrangement of the first [n] elements. *)
Lemma picked_take {B : Type} (sub out : list B) (perm : list nat) (n : nat) :
  perm ≡ₚ seq 0 n ->
  Forall2 (fun i x => sub !! i = Some x) perm out ->
  out ≡ₚ take n sub.
Proof.
  intros Hperm Hpick.
  destruct (Permutation_Forall2 Hperm Hpick) as (out' & Hout & Hseq).
  rewrite Hout. replace (take n sub) with out'; [reflexivity |].
  pose proof (Forall2_length _ _ _ Hseq) as Hlen. rewrite length_seq in Hlen.
  assert (Hn : (n <= length sub)%nat).
  { destruct n as [| n]; [lia |].
    destruct (lookup_lt_is_Some_2 out' n ltac:(lia)) as [x Hx].
    pose proof (Forall2_lookup_lr _ _ _ n _ _ Hseq
                  (lookup_seq_lt 0 (S n) n ltac:(lia)) Hx) as Hs.
    apply lookup_lt_Some in Hs. cbn in Hs. lia. }
  apply (list_eq_same_length _ _ n); [rewrite length_take; lia | lia |].
  intros i x y Hi Hx Hy.
  pose proof (Forall2_lookup_lr _ _ _ i _ _ Hseq
                (lookup_seq_lt 0 n i Hi) Hx) as Hs.
  rewrite lookup_take_lt in Hy by assumption. cbn in Hs. congruence.
Qed.

Lemma picks_None (sub : list A) (n : nat) :
  mapM (fun index => sub !! index) (shuffle (seq 0 n)) = None <->
  (length sub < n)%nat.
Proof.
  rewrite mapM_None, Exists_exists. split.
  - intros (i & Hin & Hnone). rewrite shuffle_perm in Hin.
    apply elem_of_seq in Hin. apply lookup_ge_None in Hnone. lia.
  - intros Hlt. exists (length sub). split.
    + rewrite shuffle_perm. apply elem_of_seq. lia.
    + apply lookup_ge_None. lia.
Qed.

(** X15 (consistent_shuffle, errors).  Without any list the call fails, and
    with lists it fails exactly when one of them is shorter than the first
    one; longer lists are accepted. *)
Theorem consistent_shuffle_error (first : list A) (rest : list (list A)) :
  consistent_shuffle shuffle [] = (None : option (list (list A))) /\
  (consistent_shuffle shuffle (first :: rest) = None <->
   Exists (fun sub => (length sub < length first)%nat) rest).
Proof.
  split; [reflexivity |]. unfold consistent_shuffle.
  rewrite mapM_None, Exists_cons, picks_None.
  split.
  - intros [Hlt | Hex]; [lia |].
    eapply Exists_impl; [exact Hex |]. cbn. intros sub. apply picks_None.
  - intros Hex. right.
    eapply Exists_impl; [exact Hex |]. cbn. intros sub. apply picks_None.
Qed.

(** X16 (consistent_shuffle, contents).  When the call returns, it returns
    one list per argument, and each is a rearrangement of the first
    [len(lists[0])] elements of its argument: of the whole argument when
    the lengths agree, while the tail of a longer argument is dropped. *)
Theorem consistent_shuffle_permutes (first : list A) (rest outs : list (list A)) :
  consistent_shuffle shuffle (first :: rest) = Some outs ->
  Forall2 (fun out sub => out ≡ₚ take (length first) sub) outs (first :: rest).
Proof.
  unfold consistent_shuffle. intros Hm. apply mapM_Some_1 in Hm.
  apply Forall2_flip. eapply Forall2_impl; [exact Hm |].
  cbn. intros sub out Hpick. apply mapM_Some_1 in Hpick.
  eapply picked_take; [apply shuffle_perm | exact Hpick].
Qed.

(** X17 (consistent_shuffle, consistency).  The lists are shuffled
    alike: for any two arguments, the pairs of elements that stood at the
    same position still stand at the same position in the two results. *)
Theorem consistent_shuffle_aligned (first : list A) (rest outs : list (list A))
    (k1 k2 : nat) (a b oa ob : list A) :
  consistent_shuffle shuffle (first :: rest) = Some outs ->
  (first :: rest) !! k1 = Some a -> (first :: rest) !! k2 = Some b ->
  outs !! k1 = Some oa -> outs !! k2 = Some ob ->
  zip oa ob ≡ₚ take (length first) (zip a b).
Proof.
  unfold consistent_shuffle. intros Hm Ha Hb Hoa Hob.
  apply mapM_Some_1 in Hm.
  pose proof (Forall2_lookup_lr _ _ _ _ _ _ Hm Ha Hoa) as Hpa.
  pose proof (Forall2_lookup_lr _ _ _ _ _ _ Hm Hb Hob) as Hpb.
  cbn in Hpa, Hpb. apply mapM_Some_1 in Hpa, Hpb.
  eapply picked_take; [apply shuffle_perm |].
  apply Forall2_same_length_lookup_2.
  - rewrite length_zip_with.
    rewrite <- (Forall2_length _ _ _ Hpa), <- (Forall2_length _ _ _ Hpb). lia.
  - intros j i [x y] Hj Hxy. apply lookup_zip_Some in Hxy as [Hx Hy].
    apply lookup_zip_Some. split.
    + exact (Forall2_lookup_lr _ _ _ _ _ _ Hpa Hj Hx).
    + exact (Forall2_lookup_lr _ _ _ _ _ _ Hpb Hj Hy).
Qed.

End consistent_shuffle_facts.

Lemma consistent_shuffle_error_witness :
  (forall l : list nat, reverse l ≡ₚ l) /\
  consistent_shuffle reverse [] = (None : option (list (list Z))) /\
  (consistent_shuffle reverse [[1; 2; 3]; [10; 20]] = None <->
   Exists (fun sub => Nat.lt (length sub) (length [1; 2; 3])) [[10; 20]]).
Proof.
  split; [apply reverse_Permutation |].
  apply (consistent_shuffle_error reverse (@reverse_Permutation nat)).
Defined.

Lemma consistent_shuffle_permutes_witness :
  ((forall l : list nat, reverse l ≡ₚ l) /\
   consistent_shuffle reverse [[1; 2; 3]; [10; 20; 30; 40]]
   = Some [[3; 2; 1]; [30; 20; 10]]) /\
  Forall2 (fun out sub => out ≡ₚ take (length [1; 2; 3]) sub)
    [[3; 2; 1]; [30; 20; 10]] [[1; 2; 3]; [10; 20; 30; 40]].
Proof.
  split; [split; [apply reverse_Permutation | reflexivity] |].
  apply (consistent_shuffle_permutes reverse (@reverse_Permutation nat)).
  reflexivity.
Defined.

Lemma consistent_shuffle_aligned_witness :
  ((forall l : list nat, reverse l ≡ₚ l) /\
   consistent_shuffle reverse [[1; 2; 3]; [10; 20; 30]]
   = Some [[3; 2; 1]; [30; 20; 10]]) /\
  zip [3; 2; 1] [30; 20; 10] ≡ₚ take (length [1; 2; 3]) (zip [1; 2; 3] [10; 20; 30]).
Proof.
  split; [split; [apply reverse_Permutation | reflexivity] |].
  apply (consistent_shuffle_aligned reverse (@reverse_Permutation nat)
           [1; 2; 3] [[10; 20; 30]] [[3; 2; 1]; [30; 20; 10]] 0 1);
    reflexivity.
Defined.

(** * From a list of primes back to the list *)

Lemma product_cons (x : Z) (l : list Z) : product (x :: l) = x * product l.
Proof. reflexivity. Qed.

Lemma primes_ge_2 (l : list Z) :
  Forall Z.prime l -> Forall (fun x => 2 <= x) l.
Proof.
  intros H. eapply Forall_impl; [exact H |]. intros x. apply Z.prime_ge_2.
Qed.

(** A prime that divides a product of primes is one of them. *)
Lemma prime_divides_product (p : Z) (l : list Z) :
  Z.prime p -> Forall Z.prime l -> (p | product l) -> p ∈ l.
Proof.
  intros Hp. induction 1 as [| x l Hx Hall IH]; intros Hdiv.
  - unfold product in Hdiv. cbn in Hdiv.
    pose proof (Z.prime_ge_2 p Hp).
    apply Z.divide_1_r_nonneg in Hdiv; lia.
  - rewrite product_cons in Hdiv.
    apply (Z.divide_prime_mul x (product l) p Hp) in Hdiv as [Hdx | Hdl].
    + apply (Z.divide_prime_prime p x Hp Hx) in Hdx. subst. left.
    + right. apply IH. assumption.
Qed.

(** Two ascending lists of primes with the same product are equal. *)
Lemma sorted_primes_unique (l1 : list Z) :
  forall l2,
    Forall Z.prime l1 -> Sorted Z.le l1 ->
    Forall Z.prime l2 -> Sorted Z.le l2 ->
    product l1 = product l2 -> l1 = l2.
Proof.
  induction l1 as [| x l1 IH]; intros l2 Hp1 Hs1 Hp2 Hs2 Hprod.
  - destruct l2 as [| y l2]; [reflexivity |]. exfalso.
    apply Forall_cons in Hp2 as [Hy Hp2].
    pose proof (Z.prime_ge_2 y Hy).
    pose proof (product_factors_pos l2 (primes_ge_2 l2 Hp2)).
    rewrite product_cons in Hprod. unfold product in Hprod at 1.
    cbn in Hprod. nia.
  - destruct l2 as [| y l2].
    { exfalso. apply Forall_cons in Hp1 as [Hx Hp1].
      pose proof (Z.prime_ge_2 x Hx).
      pose proof (product_factors_pos l1 (primes_ge_2 l1 Hp1)).
      rewrite product_cons in Hprod. unfold product in Hprod at 2.
      cbn in Hprod. nia. }
    pose proof Hp1 as Hp1'. pose proof Hp2 as Hp2'.
    apply Forall_cons in Hp1 as [Hx Hp1]. apply Forall_cons in Hp2 as [Hy Hp2].
    assert (Hxin : x ∈ y :: l2).
    { apply prime_divides_product; [assumption | assumption |].
      rewrite <- Hprod, product_cons. exists (product l1). ring. }
    assert (Hyin : y ∈ x :: l1).
    { apply prime_divides_product; [assumption | assumption |].
      rewrite Hprod, product_cons. exists (product l2). ring. }
    assert (Hss1 : StronglySorted Z.le (x :: l1))
      by (apply Sorted_StronglySorted; [apply _ | assumption]).
    assert (Hss2 : StronglySorted Z.le (y :: l2))
      by (apply Sorted_StronglySorted; [apply _ | assumption]).
    apply StronglySorted_cons in Hss1 as [Hle1 _].
    apply StronglySorted_cons in Hss2 as [Hle2 _].
    rewrite Forall_forall in Hle1, Hle2.
    assert (Hxy : x = y).
    { apply elem_of_cons in Hxin as [? | Hxin]; [assumption |].
      apply elem_of_cons in Hyin as [? | Hyin]; [congruence |].
      specialize (Hle1 y Hyin). specialize (Hle2 x Hxin). lia. }
    subst y. f_equal.
    apply IH; try assumption.
    + apply Sorted_inv in Hs1. tauto.
    + apply Sorted_inv in Hs2. tauto.
    + rewrite !product_cons in Hprod. pose proof (Z.prime_ge_2 x Hx). nia.
Qed.

(** X3 (from the product back to the list).  For every non-empty ascending
    list of primes whose product is below [2 ** 53], [factorize] of the
    product returns that list: the result is the only ascending list of
    primes with this product. *)
Theorem factorize_of_product (l : list Z) :
  l <> [] -> Forall Z.prime l -> Sorted Z.le l -> product l < 2 ^ 53 ->
  factorize (PyInt (product l)) = Some (Ok l).
Proof.
  intros Hne Hp Hs Hlt.
  assert (Hge : 2 <= product l).
  { destruct l as [| x l]; [congruence |].
    apply Forall_cons in Hp as [Hx Hp].
    pose proof (Z.prime_ge_2 x Hx).
    pose proof (product_factors_pos l (primes_ge_2 l Hp)).
    rewrite product_cons. nia. }
  destruct (factorize_exact_pos (product l) ltac:(lia))
    as (l' & Hl' & Hprod & Hall & Hs').
  rewrite Hl'. do 2 f_equal.
  apply sorted_primes_unique; try assumption.
  eapply Forall_impl; [exact Hall |]. cbn. tauto.
Qed.

Lemma factorize_of_product_witness :
  ([2; 3; 3; 7] <> [] /\ Forall Z.prime [2; 3; 3; 7] /\
   Sorted Z.le [2; 3; 3; 7] /\ product [2; 3; 3; 7] < 2 ^ 53) /\
  factorize (PyInt (product [2; 3; 3; 7])) = Some (Ok [2; 3; 3; 7]).
Proof.
  assert (H2 : Z.prime 2) by exact Z.prime_2.
  assert (H3 : Z.prime 3) by exact Z.prime_3.
  assert (H7 : Z.prime 7).
  { apply no_divisor_prime; [lia |]. intros x Hx.
    assert (Hc : x = 2 \/ x = 3 \/ x = 4 \/ x = 5 \/ x = 6) by lia.
    destruct Hc as [-> | [-> | [-> | [-> | ->]]]]; discriminate. }
  assert (Hp : Forall Z.prime [2; 3; 3; 7]).
  { repeat (constructor 2; [assumption |]). constructor 1. }
  assert (Hs : Sorted Z.le [2; 3; 3; 7]) by (repeat constructor; lia).
  assert (Hne : [2; 3; 3; 7] <> []) by discriminate.
  assert (Hlt : product [2; 3; 3; 7] < 2 ^ 53) by reflexivity.
  split; [repeat split; assumption |].
  apply (factorize_of_product [2; 3; 3; 7] Hne Hp Hs Hlt).
Defined.

(** * The generator and [is_prime] together *)

(** X11 (generator and primality test).  Below [2 ** 53] the two agree:
    every value yielded by the generator makes [is_prime] return true, and
    every number from 2 up to the candidate for which [is_prime] returns
    true has been yielded. *)
Theorem yielded_iff_is_prime (n : nat) (x : Z) :
  2 <= x < 2 ^ 53 -> x < candidate (state_at n) ->
  (x ∈ yielded n <-> is_prime (PyInt x) = Some (Ok true)).
Proof.
  intros Hx Hc. rewrite state_at_candidate in Hc.
  destruct (is_prime_decides x ltac:(lia) ltac:(lia) ltac:(lia))
    as (b & Hb & Hiff).
  rewrite Hb. destruct (yielded_spec n) as [_ Hy]. rewrite Hy. split.
  - intros [Hp _]. apply Hiff in Hp. congruence.
  - intros Heq. split; [| assumption]. apply Hiff. congruence.
Qed.

Lemma yielded_iff_is_prime_witness :
  (2 <= 29 < 2 ^ 53 /\ 29 < candidate (state_at 28)) /\
  (29 ∈ yielded 28 <-> is_prime (PyInt 29) = Some (Ok true)).
Proof.
  assert (H1 : 2 <= 29 < 2 ^ 53) by lia.
  assert (H2 : 29 < candidate (state_at 28)) by reflexivity.
  split; [split; assumption |].
  apply (yielded_iff_is_prime 28 29 H1 H2).
Defined.

(** * The rounding of [pow] *)

(** With the root rounded up by one unit in the last place the scan of
    4508003850388901 has one step more, the one glibc takes. *)
Example scan_stop_one_more :
  scan_stop 4508003850388901 = Ok 67141670 /\
  scan_stop_with pow_half_above 4508003850388901 = Ok 67141671.
Proof. split; vm_compute; reflexivity. Qed.

Lemma ceil_mono (m m' e : Z) :
  m <= m' ->
  Binary64.ceil (Binary64.Float m e) <= Binary64.ceil (Binary64.Float m' e).
Proof.
  intros Hm. unfold Binary64.ceil. cbn [Binary64.mant Binary64.expo].
  destruct (Z.le_gt_cases 0 e) as [He | He].
  - rewrite !Z.shiftl_mul_pow2 by assumption.
    assert (0 < 2 ^ e) by (apply Z.pow_pos_nonneg; lia). nia.
  - rewrite !Z.shiftl_div_pow2 by lia.
    assert (0 < 2 ^ (- e)) by (apply Z.pow_pos_nonneg; lia).
    assert (- m' / 2 ^ (- e) <= - m / 2 ^ (- e))
      by (apply Z.div_le_mono; lia).
    lia.
Qed.

Lemma pow_half_above_reaches_root (m stop : Z) :
  2 <= m < 2 ^ 53 -> scan_stop_with pow_half_above m = Ok stop ->
  Z.sqrt m <= stop.
Proof.
  intros Hm Hs.
  destruct (scan_stop_small m ltac:(lia)) as (stop0 & Hs0 & Hlo & _).
  unfold scan_stop, pow_half in Hs0. unfold scan_stop_with in Hs.
  rewrite float_of_int_exact in Hs0, Hs by lia. cbn [bind] in Hs0, Hs.
  inversion Hs0 as [E0]. inversion Hs as [E]. clear Hs0 Hs.
  unfold pow_half_above.
  set (x := Binary64.sqrt _) in *.
  destruct x as [mx ex]. cbn [Binary64.mant Binary64.expo].
  pose proof (ceil_mono mx (mx + 1) ex ltac:(lia)). lia.
Qed.

(** X19 (the rounding of [pow]).  When the scan bound that the C library
    gives reaches the integer square root of every number below [2 ** 53],
    [factorize] returns, for every integer below [2 ** 53] in magnitude,
    what it returns with the correctly rounded root. *)
Theorem factorize_independent_of_pow_rounding
  (pow_half_c : Binary64.float -> Binary64.float) (n : Z) :
  (forall m stop, 2 <= m < 2 ^ 53 ->
     scan_stop_with pow_half_c m = Ok stop -> Z.sqrt m <= stop) ->
  Z.abs n < 2 ^ 53 ->
  factorize_with pow_half_c (PyInt n) = factorize (PyInt n).
Proof.
  intros Hroot Hn.
  assert (Hpos : forall m, 1 <= m < 2 ^ 53 ->
            factorize_with pow_half_c (PyInt m) = factorize (PyInt m)).
  { intros m Hm. destruct (Z.eq_dec m 1) as [-> | Hm1].
    - rewrite factorize_with_pos by lia.
      destruct (scan_stop_with_small pow_half_c 1 ltac:(lia)) as [stop ->].
      destruct (trial 1 2 (range_len stop)) as [i |] eqn:Ht; [| reflexivity].
      apply trial_hit_bounds in Ht as (Hi & _); lia.
    - destruct (factorize_with_exact_pos pow_half_c Hroot m ltac:(lia))
        as (l1 & H1 & Hp1 & Ha1 & Hs1).
      destruct (factorize_exact_pos m ltac:(lia))
        as (l2 & H2 & Hp2 & Ha2 & Hs2).
      rewrite H1, H2. do 2 f_equal.
      apply sorted_primes_unique; try assumption; try congruence.
      + eapply Forall_impl; [exact Ha1 |]. intros x [Hx _]. exact Hx.
      + eapply Forall_impl; [exact Ha2 |]. intros x [Hx _]. exact Hx. }
  destruct (Z.lt_trichotomy n 0) as [Hneg | [-> | Hp]].
  - rewrite factorize_with_neg, factorize_neg by assumption.
    rewrite Hpos by lia. reflexivity.
  - reflexivity.
  - apply Hpos. lia.
Qed.

Lemma factorize_independent_of_pow_rounding_witness :
  (forall m stop, 2 <= m < 2 ^ 53 ->
     scan_stop_with pow_half_above m = Ok stop -> Z.sqrt m <= stop) /\
  Z.abs 4508003850388901 < 2 ^ 53 /\
  factorize_with pow_half_above (PyInt 4508003850388901) =
  factorize (PyInt 4508003850388901).
Proof.
  split; [exact pow_half_above_reaches_root |].
  split; [cbn; lia |].
  apply (factorize_independent_of_pow_rounding pow_half_above 4508003850388901).
  - exact pow_half_above_reaches_root.
  - cbn. lia.
Defined.

(** * Negative numbers *)

(** X18 (negative numbers).  [is_prime] never returns [True] for a
    negative integer, whatever its size: a list that [factorize] returns
    for it is -1 in front of the non-empty list of the opposite, and
    [is_prime] then returns [False]. *)
Theorem is_prime_negative_never_true (n : Z) :
  n < 0 ->
  is_prime (PyInt n) <> Some (Ok true) /\
  forall l, factorize (PyInt n) = Some (Ok l) ->
    is_prime (PyInt n) = Some (Ok false) /\
    exists x l', l = -1 :: x :: l' /\
      factorize (PyInt (- n)) = Some (Ok (x :: l')).
Proof.
  intros Hn. split.
  - intros H. apply is_prime_true in H as [y Hy].
    apply (factorize_neg_shape n _ Hn) in Hy as (x & l' & Heq & _).
    discriminate.
  - intros l Hl.
    destruct (factorize_neg_shape n l Hn Hl) as (x & l' & -> & Hrec).
    split; [| eauto]. unfold is_prime. rewrite Hl. reflexivity.
Qed.

Lemma is_prime_negative_never_true_witness :
  -17 < 0 /\
  (is_prime (PyInt (-17)) <> Some (Ok true) /\
   forall l, factorize (PyInt (-17)) = Some (Ok l) ->
     is_prime (PyInt (-17)) = Some (Ok false) /\
     exists x l', l = -1 :: x :: l' /\
       factorize (PyInt (- -17)) = Some (Ok (x :: l'))).
Proof.
  split; [lia |]. apply (is_prime_negative_never_true (-17)). lia.
Defined.
